(** * pokemon-repl: the TTL cache, the cached fetch layer and the catch command

    A shallow embedding of

    - package [cache]: [Cache], [entry], [New], [Add], [Get] and the body
      of [reapLoop];
    - package [pokeapi]: [Client], [NewClient], [fetchWithCache],
      [GetPokemon];
    - package [main]: [config], [commandCatch].

    Conventions.

    - A [time.Time] obtained from [time.Now()] is represented by its
      monotonic clock reading, an integer number of nanoseconds, and a
      [time.Duration] by an integer number of nanoseconds.  [time.Since t]
      is [time.Now().Sub(t)]; both readings come from the monotonic clock of
      one process, are non-negative and below 2^63, so the subtraction never
      saturates and is plain integer subtraction.
    - A [[]byte] is a [list Byte.byte]; the [nil] slice is the empty list.
    - A Go [map[string]T] is a [gmap string T].
    - Every method that reads the clock takes the reading as its argument
      [now]; every method with a pointer receiver returns the new value of
      the receiver. *)

From Stdlib Require Import ZArith Lia.
From stdpp Require Import gmap strings list fin_maps.

Local Open Scope Z_scope.

Abbreviation bytes := (list Byte.byte).

Module cache.

Definition Time := Z.
Definition Duration := Z.

(** [time.Since(t)], evaluated when the clock reads [now]. *)
Definition Since (now t : Time) : Duration := now - t.

(** [type entry struct { createdAt time.Time; data []byte }] *)
Record entry := mkEntry { createdAt : Time; data : bytes }.

(** [type Cache struct { entries map[string]entry; mu *sync.RWMutex;
    ttl time.Duration }].  The mutex carries no data; the lock protocol is
    modelled in module [concurrent] below. *)
Record Cache := mkCache { entries : gmap string entry; ttl : Duration }.

(** [func New(ttl time.Duration) *Cache]: an empty entry map.  The
    goroutine it starts is the ticker of module [reaper]. *)
Definition New (ttl : Duration) : Cache :=
  {| entries := ∅; ttl := ttl |}.

(** [func (c *Cache) Add(key string, data []byte)] *)
Definition Add (now : Time) (key : string) (data : bytes) (c : Cache) : Cache :=
  {| entries := <[key := {| createdAt := now; data := data |}]> (entries c);
     ttl := ttl c |}.

(** [func (c *Cache) Get(key string) ([]byte, bool)]: the result and the
    receiver after the call. *)
Definition Get (key : string) (c : Cache) : (bytes * bool) * Cache :=
  match entries c !! key with
  | None => (([], false), c)
  | Some e => ((data e, true), c)
  end.

(** The test [time.Since(e.createdAt) > c.ttl] of the sweep. *)
Definition expired (now : Time) (ttl : Duration) (e : entry) : bool :=
  bool_decide (Since now (createdAt e) > ttl).

(** One iteration of the inner loop of [reapLoop]:
    [if time.Since(e.createdAt) > c.ttl { delete(c.entries, key) }]. *)
Definition reap_entry (now : Time) (ttl : Duration)
    (key : string) (e : entry) (m : gmap string entry) : gmap string entry :=
  if expired now ttl e then delete key m else m.

(** The body of the outer loop of [reapLoop], run when the clock reads
    [now]: [for key, e := range c.entries { ... }].  The loop deletes only
    the key it is visiting, so it visits every entry of the map as it was
    when the loop started exactly once; the deletions act on the map
    itself.  The loop runs under the lock and does not block: one reading
    of the clock stands for the [time.Since] of all its iterations. *)
Definition sweep (now : Time) (c : Cache) : Cache :=
  {| entries := map_fold (reap_entry now (ttl c)) (entries c) (entries c);
     ttl := ttl c |}.

Arguments Add : simpl never.
Arguments Get : simpl never.
Arguments sweep : simpl never.

End cache.

(** ** The store, the clock and the ticker of [reapLoop] *)

Module reaper.
Import cache.

(** The state [reapLoop] and the callers of the store share: the store,
    the clock, and the time of the next tick of
    [ticker := time.NewTicker(c.ttl)].  The ticker is ideal: it ticks when
    the clock reads [next_tick], and the next tick is [ttl] later; the
    sweep reads the clock at the instant of the tick.  The time the
    goroutine of [reapLoop] takes to start and to get from the tick to
    [time.Since] is not modelled. *)
Record World := mkWorld { store : Cache; clock : Time; next_tick : Time }.

(** [New(ttl)] called when the clock reads [s]: the first tick is due at
    [s + ttl]. *)
Definition start (s : Time) (ttl : Duration) : World :=
  {| store := New ttl; clock := s; next_tick := s + ttl |}.

Inductive event :=
| Wait (d : Duration)               (* the clock advances by [d] *)
| Tick                              (* [for range ticker.C { ... }] *)
| CallAdd (key : string) (data : bytes)
| CallGet (key : string).

(** One step of the system.  Time cannot pass beyond a tick that is due:
    [Wait d] is refused when it would skip [next_tick], and [Tick] runs
    exactly when the clock reads [next_tick]. *)
Definition step (w : World) (ev : event) : option World :=
  match ev with
  | Wait d =>
      if bool_decide (0 <= d ∧ clock w + d <= next_tick w)
      then Some {| store := store w; clock := clock w + d;
                   next_tick := next_tick w |}
      else None
  | Tick =>
      if bool_decide (clock w = next_tick w)
      then Some {| store := sweep (clock w) (store w); clock := clock w;
                   next_tick := next_tick w + ttl (store w) |}
      else None
  | CallAdd key data =>
      Some {| store := Add (clock w) key data (store w); clock := clock w;
              next_tick := next_tick w |}
  | CallGet key =>
      Some {| store := snd (Get key (store w)); clock := clock w;
              next_tick := next_tick w |}
  end.

Fixpoint run (w : World) (tr : list event) : option World :=
  match tr with
  | [] => Some w
  | ev :: tr' =>
      match step w ev with
      | Some w' => run w' tr'
      | None => None
      end
  end.

(** The clock readings at which the sweeps of a run happen. *)
Fixpoint sweep_times (w : World) (tr : list event) : list Time :=
  match tr with
  | [] => []
  | ev :: tr' =>
      match step w ev with
      | Some w' =>
          match ev with
          | Tick => clock w :: sweep_times w' tr'
          | _ => sweep_times w' tr'
          end
      | None => []
      end
  end.

(** The sweeps of a run: for every [Tick] the run takes, the reading of
    the clock, the store the step found and the store the step left. *)
Fixpoint sweeps (w : World) (tr : list event)
    : list (Time * Cache * Cache) :=
  match tr with
  | [] => []
  | ev :: tr' =>
      match step w ev with
      | Some w' =>
          match ev with
          | Tick => (clock w, store w, store w') :: sweeps w' tr'
          | _ => sweeps w' tr'
          end
      | None => []
      end
  end.

(** [key] is the subject of no [Add] in the trace. *)
Definition adds_key (key : string) (ev : event) : bool :=
  match ev with
  | CallAdd key' _ => bool_decide (key' = key)
  | _ => false
  end.

Definition never_added (key : string) (tr : list event) : bool :=
  forallb (fun ev => negb (adds_key key ev)) tr.

(** What holds between two sweeps: the clock has not passed the next
    tick, and the next tick is at most [ttl] away. *)
Definition well_formed (w : World) : Prop :=
  0 < ttl (store w) ∧
  clock w <= next_tick w ∧ next_tick w <= clock w + ttl (store w).

(** What is known of an entry added at [t0] with payload [v] and never
    added again: it is there and the next sweep is due by [t0 + 2 ttl],
    or it is gone and the clock is past [t0 + ttl]. *)
Definition aged (t0 : Time) (key : string) (v : bytes) (w : World) : Prop :=
  t0 <= clock w ∧
  ((entries (store w) !! key = Some (mkEntry t0 v) ∧
    next_tick w <= t0 + 2 * ttl (store w)) ∨
   (entries (store w) !! key = None ∧ t0 + ttl (store w) < clock w)).

End reaper.

(** ** The fetch layer *)

Module pokeapi.
Import cache.

(** The error values the fetch layer and the commands build with
    [fmt.Errorf]. *)
Inductive error :=
| FailedToFetch (cause : string)    (* "failed to fetch data: %w" *)
| APIStatus (code : Z)              (* "API returned status %d" *)
| FailedToRead (cause : string)     (* "failed to read response: %w" *)
| FailedToParse (cause : string)    (* "failed to parse pokemon: %w" *)
| NoPokemonName.                    (* "please provide a Pokemon name ..." *)

Inductive result (A : Type) :=
| Ok (a : A)
| Err (e : error).
Arguments Ok {A} a.
Arguments Err {A} e.

(** What [http.Get] hands back: an error, or a response with its status
    code and what [io.ReadAll(resp.Body)] is going to return. *)
Record Response := mkResponse { StatusCode : Z; Body : bytes + string }.

Inductive reply :=
| Refused (cause : string)
| Replied (resp : Response).

Definition StatusOK : Z := 200.

(** What the process does to the outside: the calls of [http.Get] it
    makes, each recorded in [requests] with its URL argument, and the lines
    it prints.  What a call of [http.Get] puts on the network (nothing
    for a URL it cannot parse, more than one request when it follows
    redirects) is not in this log. *)
Record IO := mkIO { requests : list string; stdout : list string }.

Definition request (url : string) (io : IO) : IO :=
  {| requests := requests io ++ [url]; stdout := stdout io |}.

Definition Println (line : string) (io : IO) : IO :=
  {| requests := requests io; stdout := stdout io ++ [line] |}.

(** The scalar fields of [type Pokemon struct]; the nested resources
    (abilities, forms, moves, sprites, ...) are read by no function
    modelled here. *)
Record Pokemon := mkPokemon {
  ID : Z;
  Name : string;
  BaseExperience : Z;
  Height : Z;
  Weight : Z;
  IsDefault : bool;
  Order : Z;
  LocationAreaEncounters : string
}.

Definition BaseURL : string := "https://pokeapi.co/api/v2".

(** [5 * time.Minute] *)
Definition DefaultCacheTTL : Duration := 5 * (60 * 1000000000).

(** [type Client struct { cache *cache.Cache; baseURL string }] *)
Record Client := mkClient { cache : Cache; baseURL : string }.

Definition NewClient : Client :=
  {| cache := New DefaultCacheTTL; baseURL := BaseURL |}.

Definition set_cache (c : Client) (ch : Cache) : Client :=
  {| cache := ch; baseURL := baseURL c |}.

Section network.
(** The remote side and the decoder of [encoding/json]. *)
Variable http_Get : string -> reply.
Variable json_Unmarshal : bytes -> Pokemon + string.

(** [func (c *Client) fetchWithCache(url string) ([]byte, error)] *)
Definition fetchWithCache (now : Time) (url : string) (c : Client) (io : IO)
    : result bytes * Client * IO :=
  match Get url (cache c) with
  | ((data, true), ch) =>
      (Ok data, set_cache c ch, Println "(using cached data)" io)
  | ((_, false), ch) =>
      let c := set_cache c ch in
      let io := request url io in
      match http_Get url with
      | Refused cause => (Err (FailedToFetch cause), c, io)
      | Replied resp =>
          if bool_decide (StatusCode resp ≠ StatusOK)
          then (Err (APIStatus (StatusCode resp)), c, io)
          else
            match Body resp with
            | inr cause => (Err (FailedToRead cause), c, io)
            | inl data =>
                (Ok data, set_cache c (Add now url data (cache c)), io)
            end
      end
  end.

(** [func (c *Client) GetPokemon(name string)] returning a [Pokemon] or an error. *)
Definition GetPokemon (now : Time) (name : string) (c : Client) (io : IO)
    : result Pokemon * Client * IO :=
  let url := (baseURL c ++ "/pokemon/" ++ name ++ "/")%string in
  match fetchWithCache now url c io with
  | (Err e, c, io) => (Err e, c, io)
  | (Ok data, c, io) =>
      match json_Unmarshal data with
      | inr cause => (Err (FailedToParse cause), c, io)
      | inl response => (Ok response, c, io)
      end
  end.
End network.

(** *** The location endpoints *)

(** [type NamedResource struct { Name string; URL string }].  Field names
    that several structs share carry the name of their struct. *)
Record NamedResource := mkNamedResource {
  NamedResource_Name : string;
  NamedResource_URL : string
}.

(** [type LocationAreasResponse struct]; [Next] and [Previous] are
    [*string], [nil] being [None]. *)
Record LocationAreasResponse := mkLocationAreasResponse {
  Count : Z;
  Next : option string;
  Previous : option string;
  Results : list NamedResource
}.

Record LocalizedName := mkLocalizedName {
  LocalizedName_Name : string;
  Language : NamedResource
}.

Record VersionDetail := mkVersionDetail {
  Rate : Z;
  VersionDetail_Version : NamedResource
}.

Record EncounterMethodRate := mkEncounterMethodRate {
  EncounterMethod : NamedResource;
  EncounterMethodRate_VersionDetails : list VersionDetail
}.

(** The structs below hold values of type [any] ([ConditionValues
    []any]); the type of these values is a parameter. *)
Record EncounterDetail (any : Type) := mkEncounterDetail {
  MinLevel : Z;
  MaxLevel : Z;
  Chance : Z;
  Method : NamedResource;
  ConditionValues : list any
}.

Record VersionEncounterGroup (any : Type) := mkVersionEncounterGroup {
  Version : NamedResource;
  MaxChance : Z;
  EncounterDetails : list (EncounterDetail any)
}.

Record PokemonEncounter (any : Type) := mkPokemonEncounter {
  PokemonEncounter_Pokemon : NamedResource;
  VersionDetails : list (VersionEncounterGroup any)
}.

Record LocationAreaResponse (any : Type) := mkLocationAreaResponse {
  LocationAreaResponse_ID : Z;
  LocationAreaResponse_Name : string;
  GameIndex : Z;
  Location : NamedResource;
  Names : list LocalizedName;
  EncounterMethodRates : list EncounterMethodRate;
  PokemonEncounters : list (PokemonEncounter any)
}.

Arguments PokemonEncounter_Pokemon {any} _.
Arguments Location {any} _.
Arguments PokemonEncounters {any} _.

(** The errors of the location endpoints and of the commands that use
    them: an error of [fetchWithCache] passed on as it is, or one built
    with [fmt.Errorf]. *)
Inductive failure :=
| Fetch (e : error)
| FailedToParseAreas (cause : string) (* "failed to parse location areas: %w" *)
| FailedToParseArea (cause : string)  (* "failed to parse location area: %w" *)
| NoLocationName.                     (* "please provide a location name ..." *)

(** [func (c *Client) GetFirstLocationAreasURL() string] *)
Definition GetFirstLocationAreasURL (c : Client) : string :=
  (baseURL c ++ "/location-area/")%string.

(** The URL [GetPokemon] builds: [fmt.Sprintf("%s/pokemon/%s/", ...)]. *)
Definition pokemon_url (c : Client) (name : string) : string :=
  (baseURL c ++ "/pokemon/" ++ name ++ "/")%string.

(** The URL [GetLocationArea] builds:
    [fmt.Sprintf("%s/location-area/%s/", ...)]. *)
Definition location_area_url (c : Client) (name : string) : string :=
  (baseURL c ++ "/location-area/" ++ name ++ "/")%string.

Section locations.
Variable any : Type.
Variable http_Get : string -> reply.
(** [json.Unmarshal] into a [LocationAreasResponse] and into a
    [LocationAreaResponse]. *)
Variable json_Unmarshal_areas : bytes -> LocationAreasResponse + string.
Variable json_Unmarshal_area : bytes -> LocationAreaResponse any + string.

(** [func (c *Client) GetLocationAreas(url string)] returning a
    [LocationAreasResponse] or an error. *)
Definition GetLocationAreas (now : Time) (url : string) (c : Client) (io : IO)
    : (LocationAreasResponse + failure) * Client * IO :=
  match fetchWithCache http_Get now url c io with
  | (Err e, c, io) => (inr (Fetch e), c, io)
  | (Ok data, c, io) =>
      match json_Unmarshal_areas data with
      | inr cause => (inr (FailedToParseAreas cause), c, io)
      | inl response => (inl response, c, io)
      end
  end.

(** [func (c *Client) GetLocationArea(name string)] returning a
    [LocationAreaResponse] or an error. *)
Definition GetLocationArea (now : Time) (name : string) (c : Client) (io : IO)
    : (LocationAreaResponse any + failure) * Client * IO :=
  let url := location_area_url c name in
  match fetchWithCache http_Get now url c io with
  | (Err e, c, io) => (inr (Fetch e), c, io)
  | (Ok data, c, io) =>
      match json_Unmarshal_area data with
      | inr cause => (inr (FailedToParseArea cause), c, io)
      | inl response => (inl response, c, io)
      end
  end.
End locations.

End pokeapi.

(** ** The catch command *)

Module main.
Import cache pokeapi.

(** [type config struct { client; nextURL; prevURL; pokedex }] *)
Record config := mkConfig {
  client : Client;
  nextURL : option string;
  prevURL : option string;
  pokedex : gmap string Pokemon
}.

Definition set_client (cfg : config) (c : Client) : config :=
  {| client := c; nextURL := nextURL cfg; prevURL := prevURL cfg;
     pokedex := pokedex cfg |}.

Definition maxBaseExp : Z := 400.

(** The values [rand.Intn(n)] can return: [0 <= roll < n]. *)
Definition Intn_returns (n roll : Z) : Prop := 0 <= roll < n.

(** What a catch prints after the Pokemon was fetched. *)
Definition reports_catch (pokemonName : string) (before after : IO) : Prop :=
  stdout after =
    stdout before ++
      [(pokemonName ++ " was caught!")%string;
       "You may now inspect it with the inspect command."%string].

Section network.
Variable http_Get : string -> reply.
Variable json_Unmarshal : bytes -> Pokemon + string.

(** [func commandCatch(cfg *config, args []string) error]; [roll] is
    what [rand.Intn(maxBaseExp)] returns in this call. *)
Definition commandCatch (now : Time) (roll : Z)
    (cfg : config) (args : list string) (io : IO)
    : option error * config * IO :=
  match args with
  | [] => (Some NoPokemonName, cfg, io)
  | pokemonName :: _ =>
      let io :=
        Println ("Throwing a Pokeball at " ++ pokemonName ++ "...") io in
      match GetPokemon http_Get json_Unmarshal now pokemonName
              (client cfg) io with
      | (Err err, c, io) => (Some err, set_client cfg c, io)
      | (Ok pokemon, c, io) =>
          let cfg := set_client cfg c in
          let catchThreshold := BaseExperience pokemon in
          let catchThreshold := Z.min catchThreshold maxBaseExp in
          if bool_decide (roll >= catchThreshold)
          then
            let io := Println (pokemonName ++ " was caught!") io in
            let io :=
              Println "You may now inspect it with the inspect command." io in
            (None,
             {| client := client cfg; nextURL := nextURL cfg;
                prevURL := prevURL cfg;
                pokedex := <[pokemonName := pokemon]> (pokedex cfg) |},
             io)
          else
            (None, cfg, Println (pokemonName ++ " escaped!") io)
      end
  end.
End network.

(** *** The other commands *)

(** The white space of [strings.Fields] among the ASCII characters:
    tab, line feed, vertical tab, form feed, carriage return, space. *)
Definition isSpace (a : Ascii.ascii) : bool :=
  match Ascii.nat_of_ascii a with
  | 9%nat | 10%nat | 11%nat | 12%nat | 13%nat | 32%nat => true
  | _ => false
  end.

(** [strings.Fields] on ASCII text, scanning from the left: [word] is the
    field being read, empty between fields. *)
Fixpoint Fields_from (word : string) (s : string) : list string :=
  match s with
  | EmptyString =>
      match word with
      | EmptyString => []
      | _ => [word]
      end
  | String a s' =>
      if isSpace a
      then
        match word with
        | EmptyString => Fields_from EmptyString s'
        | _ => word :: Fields_from EmptyString s'
        end
      else Fields_from (word ++ String a EmptyString) s'
  end.

Definition Fields (s : string) : list string := Fields_from EmptyString s.

(** [unicode.ToLower] on an ASCII character. *)
Definition lower (a : Ascii.ascii) : Ascii.ascii :=
  let n := Ascii.nat_of_ascii a in
  if (65 <=? n)%nat && (n <=? 90)%nat then Ascii.ascii_of_nat (n + 32) else a.

(** [strings.ToLower] on ASCII text. *)
Fixpoint ToLower (s : string) : string :=
  match s with
  | EmptyString => EmptyString
  | String a s' => String (lower a) (ToLower s')
  end.

(** The text holds ASCII characters only.  On such text [Fields] and
    [ToLower] above are [strings.Fields] and [strings.ToLower]; other
    text is outside this model. *)
Fixpoint ascii_text (s : string) : bool :=
  match s with
  | EmptyString => true
  | String a s' => (Ascii.nat_of_ascii a <? 128)%nat && ascii_text s'
  end.

(** [func cleanInput(text string) []string] *)
Definition cleanInput (text : string) : list string :=
  map ToLower (Fields text).

(** [for _, x := range xs { fmt.Println(line x) }] *)
Definition print_each {A : Type} (line : A → string) (xs : list A) (io : IO)
    : IO :=
  foldl (λ io x, Println (line x) io) io xs.

(** Every character of the text passes the test. *)
Fixpoint all_chars (f : Ascii.ascii → bool) (s : string) : bool :=
  match s with
  | EmptyString => true
  | String a s' => f a && all_chars f s'
  end.

(** An upper-case ASCII letter. *)
Definition isUpper (a : Ascii.ascii) : bool :=
  (65 <=? Ascii.nat_of_ascii a)%nat && (Ascii.nat_of_ascii a <=? 90)%nat.

(** A word as [cleanInput] returns them: not empty, without white space
    and without upper-case letters. *)
Definition clean_word (w : string) : Prop :=
  w ≠ EmptyString ∧
  all_chars (λ a, negb (isSpace a)) w = true ∧
  all_chars (λ a, negb (isUpper a)) w = true.

(** [strings.Join(words, " ")] *)
Fixpoint Join_space (words : list string) : string :=
  match words with
  | [] => EmptyString
  | [w] => w
  | w :: ws => (w ++ " " ++ Join_space ws)%string
  end.

(** [func commandPokedex(cfg *config, args []string) error]; [order] is
    the order in which [for name := range cfg.pokedex] visits the keys in
    this call. *)
Definition commandPokedex (order : list string) (cfg : config)
    (args : list string) (io : IO) : option failure * config * IO :=
  if bool_decide (size (pokedex cfg) = 0%nat)
  then
    (None, cfg,
     Println "Your Pokedex is empty. Try catching some Pokemon!" io)
  else
    (None, cfg,
     print_each (λ name, "  - " ++ name)%string order
       (Println "Your Pokedex:" io)).

Section commands.
Variable any : Type.
Variable http_Get : string -> reply.
Variable json_Unmarshal_areas : bytes -> LocationAreasResponse + string.
Variable json_Unmarshal_area : bytes -> LocationAreaResponse any + string.

(** [func commandMap(cfg *config, args []string) error] *)
Definition commandMap (now : Time) (cfg : config) (args : list string)
    (io : IO) : option failure * config * IO :=
  match nextURL cfg with
  | None => (None, cfg, Println "You're on the last page" io)
  | Some url =>
      match GetLocationAreas http_Get json_Unmarshal_areas now url
              (client cfg) io with
      | (inr err, c, io) => (Some err, set_client cfg c, io)
      | (inl resp, c, io) =>
          (None,
           {| client := c; nextURL := Next resp; prevURL := Previous resp;
              pokedex := pokedex cfg |},
           print_each NamedResource_Name (Results resp) io)
      end
  end.

(** [func commandMapb(cfg *config, args []string) error] *)
Definition commandMapb (now : Time) (cfg : config) (args : list string)
    (io : IO) : option failure * config * IO :=
  match prevURL cfg with
  | None => (None, cfg, Println "You're on the first page" io)
  | Some url =>
      match GetLocationAreas http_Get json_Unmarshal_areas now url
              (client cfg) io with
      | (inr err, c, io) => (Some err, set_client cfg c, io)
      | (inl resp, c, io) =>
          (None,
           {| client := c; nextURL := Next resp; prevURL := Previous resp;
              pokedex := pokedex cfg |},
           print_each NamedResource_Name (Results resp) io)
      end
  end.

(** [func commandExplore(cfg *config, args []string) error] *)
Definition commandExplore (now : Time) (cfg : config) (args : list string)
    (io : IO) : option failure * config * IO :=
  match args with
  | [] => (Some NoLocationName, cfg, io)
  | locationName :: _ =>
      match GetLocationArea any http_Get json_Unmarshal_area now locationName
              (client cfg) io with
      | (inr err, c, io) => (Some err, set_client cfg c, io)
      | (inl resp, c, io) =>
          let io :=
            Println ("Exploring " ++ NamedResource_Name (Location resp)
                       ++ "...") io in
          let io := Println "Found Pokemon:" io in
          let io :=
            match PokemonEncounters resp with
            | [] => Println "  No Pokemon found in this area." io
            | encounters =>
                print_each
                  (λ encounter,
                     "  - " ++ NamedResource_Name
                                 (PokemonEncounter_Pokemon encounter))%string
                  encounters io
            end in
          (None, set_client cfg c, io)
      end
  end.
End commands.

End main.

(** ** Goroutines calling the store under its [sync.RWMutex]

    Every goroutine runs one call.  A call is the sequence of statements
    of its method: taking the lock, the statement on [c.entries], the
    deferred release.  An execution is an interleaving of the statements
    of the goroutines, picked by a scheduler, with the passage of time. *)

Module concurrent.
Import cache.

(** The state of a [sync.RWMutex]: whether a writer holds it, how many
    readers hold it, and how many [Lock] calls are blocked waiting for
    it.  A blocked [Lock] call keeps new readers out. *)
Record RWMutex := mkMutex { writer : bool; readers : nat; pending : nat }.

Definition unlocked : RWMutex :=
  {| writer := false; readers := 0; pending := 0 |}.

(** What a goroutine runs: one call of [Add], one call of [Get], or one
    iteration of the loop of [reapLoop]. *)
Inductive call :=
| DoAdd (key : string) (data : bytes)
| DoGet (key : string)
| DoSweep.

(** [Add] and the sweep take [c.mu.Lock()]; [Get] takes [c.mu.RLock()]. *)
Definition writes (c : call) : bool :=
  match c with
  | DoGet _ => false
  | _ => true
  end.

(** Where a goroutine stands in the body of its method: before
    [c.mu.Lock()] / [c.mu.RLock()], blocked inside [Lock], holding the
    lock before the statement on [c.entries], holding the lock after it
    (the deferred unlock is next), returned. *)
Inductive position := AtLock | Pending | AtAccess | AtUnlock | Done.

Record goroutine := mkGoroutine {
  op : call;
  pos : position;
  returned : option (bytes * bool);   (* what [Get] returned *)
  stamp : option Time                 (* the [time.Now()] of [Add] *)
}.

Definition spawn (c : call) : goroutine :=
  {| op := c; pos := AtLock; returned := None; stamp := None |}.

Definition move (g : goroutine) (p : position) : goroutine :=
  {| op := op g; pos := p; returned := returned g; stamp := stamp g |}.

Record State := mkState {
  store : Cache;
  mu : RWMutex;
  clock : Time;
  goroutines : list goroutine
}.

Definition init (c : Cache) (now : Time) (calls : list call) : State :=
  {| store := c; mu := unlocked; clock := now;
     goroutines := map spawn calls |}.

(** The next statement of goroutine [g], run when the store is [c], the
    mutex [m] and the clock reads [now]; [None] when the goroutine is
    blocked or has returned. *)
Definition exec (c : Cache) (m : RWMutex) (now : Time) (g : goroutine)
    : option (Cache * RWMutex * goroutine) :=
  match pos g, op g with
  | AtLock, DoGet _ =>
      (* c.mu.RLock() *)
      if negb (writer m) && (pending m =? 0)%nat
      then Some (c, {| writer := writer m; readers := S (readers m);
                       pending := pending m |}, move g AtAccess)
      else None
  | AtLock, _ =>
      (* c.mu.Lock() is called *)
      Some (c, {| writer := writer m; readers := readers m;
                  pending := S (pending m) |}, move g Pending)
  | Pending, DoGet _ => None
  | Pending, _ =>
      (* c.mu.Lock() returns *)
      if negb (writer m) && (readers m =? 0)%nat
      then Some (c, {| writer := true; readers := readers m;
                       pending := Nat.pred (pending m) |}, move g AtAccess)
      else None
  | AtAccess, DoAdd key data =>
      Some (Add now key data c, m,
            {| op := op g; pos := AtUnlock; returned := returned g;
               stamp := Some now |})
  | AtAccess, DoGet key =>
      let '(r, c') := Get key c in
      Some (c', m,
            {| op := op g; pos := AtUnlock; returned := Some r;
               stamp := stamp g |})
  | AtAccess, DoSweep =>
      Some (sweep now c, m, move g AtUnlock)
  | AtUnlock, DoGet _ =>
      (* c.mu.RUnlock() *)
      Some (c, {| writer := writer m; readers := Nat.pred (readers m);
                  pending := pending m |}, move g Done)
  | AtUnlock, _ =>
      (* c.mu.Unlock() *)
      Some (c, {| writer := false; readers := readers m;
                  pending := pending m |}, move g Done)
  | Done, _ => None
  end.

(** The scheduler picks a goroutine, or time passes. *)
Inductive action :=
| Run (i : nat)
| Elapse (d : Duration).

Definition step (st : State) (a : action) : option State :=
  match a with
  | Run i =>
      match goroutines st !! i with
      | None => None
      | Some g =>
          match exec (store st) (mu st) (clock st) g with
          | None => None
          | Some (c, m, g') =>
              Some {| store := c; mu := m; clock := clock st;
                      goroutines := <[i := g']> (goroutines st) |}
          end
      end
  | Elapse d =>
      if bool_decide (0 <= d)
      then Some {| store := store st; mu := mu st; clock := clock st + d;
                   goroutines := goroutines st |}
      else None
  end.

Fixpoint run (st : State) (sch : list action) : option State :=
  match sch with
  | [] => Some st
  | a :: sch' =>
      match step st a with
      | Some st' => run st' sch'
      | None => None
      end
  end.

(** A goroutine is inside its critical section: between the return of
    [Lock] / [RLock] and the deferred [Unlock] / [RUnlock]. *)
Definition inside (g : goroutine) : bool :=
  match pos g with
  | AtAccess | AtUnlock => true
  | _ => false
  end.

(** Two goroutines are inside their critical sections at once and one of
    them writes the map: a data race on [c.entries]. *)
Definition conflict (st : State) : Prop :=
  ∃ i j gi gj,
    i ≠ j ∧ goroutines st !! i = Some gi ∧ goroutines st !! j = Some gj ∧
    inside gi = true ∧ inside gj = true ∧
    (writes (op gi) = true ∨ writes (op gj) = true).

Definition finished (g : goroutine) : bool :=
  match pos g with
  | Done => true
  | _ => false
  end.

Definition all_done (st : State) : bool := forallb finished (goroutines st).

(** The goroutine runs an [Add] of [key]. *)
Definition adds (key : string) (g : goroutine) : bool :=
  match op g with
  | DoAdd key' _ => bool_decide (key' = key)
  | _ => false
  end.

(** No goroutine other than the one at index [i] adds [key]. *)
Definition sole_writer (i : nat) (key : string) (st : State) : Prop :=
  ∀ j g, goroutines st !! j = Some g → adds key g = true → j = i.

(** Sum of a weight over the goroutines. *)
Definition tally (w : goroutine → nat) (gs : list goroutine) : nat :=
  foldr (λ g n, (w g + n)%nat) 0%nat gs.

Definition one_if (f : goroutine → bool) (g : goroutine) : nat :=
  if f g then 1%nat else 0%nat.

Definition holds_write (g : goroutine) : bool := inside g && writes (op g).
Definition holds_read (g : goroutine) : bool := inside g && negb (writes (op g)).
Definition waiting (g : goroutine) : bool :=
  match pos g with
  | Pending => true
  | _ => false
  end.
Definition reader_waiting (g : goroutine) : bool :=
  waiting g && negb (writes (op g)).

(** The mutex counts what the goroutines do: the writer flag is set when
    one goroutine is inside the critical section of [Add] or of the sweep,
    [readers] counts the goroutines inside [Get], [pending] those blocked
    in [Lock]; no reader is inside while a writer is. *)
Definition lock_inv (st : State) : Prop :=
  tally (one_if holds_write) (goroutines st) =
    (if writer (mu st) then 1%nat else 0%nat) ∧
  tally (one_if holds_read) (goroutines st) = readers (mu st) ∧
  tally (one_if waiting) (goroutines st) = pending (mu st) ∧
  tally (one_if reader_waiting) (goroutines st) = 0%nat ∧
  (writer (mu st) = true → readers (mu st) = 0%nat).

(** The statements a goroutine still has to run. *)
Definition fuel (g : goroutine) : nat :=
  match pos g with
  | AtLock => 4
  | Pending => 3
  | AtAccess => 2
  | AtUnlock => 1
  | Done => 0
  end.

(** The entry a goroutine added is there with its time stamp and payload,
    or a sweep deleted it after it had expired, as long as no other
    goroutine adds the same key. *)
Definition kept_inv (st : State) : Prop :=
  ∀ i g key v t0,
    goroutines st !! i = Some g → op g = DoAdd key v → stamp g = Some t0 →
    sole_writer i key st →
    t0 <= clock st ∧
    (entries (store st) !! key = Some (mkEntry t0 v) ∨
     (entries (store st) !! key = None ∧ clock st - t0 > ttl (store st))).

(** A goroutine that has run the assignment of [Add] carries the time it
    read. *)
Definition stamped_inv (st : State) : Prop :=
  ∀ i g key v,
    goroutines st !! i = Some g → op g = DoAdd key v →
    pos g = AtUnlock ∨ pos g = Done → is_Some (stamp g).

(** A goroutine that has run the statement of [Get] on the map carries
    what it is going to return. *)
Definition answered_inv (st : State) : Prop :=
  ∀ i g key,
    goroutines st !! i = Some g → op g = DoGet key →
    pos g = AtUnlock ∨ pos g = Done → is_Some (returned g).

(** The payload [v] was under [key] in the store [c0] the goroutines
    start from, or is the payload of one of their [calls] of [Add] for
    [key]. *)
Definition written (c0 : Cache) (calls : list call) (key : string)
    (v : bytes) : Prop :=
  (∃ e0, entries c0 !! key = Some e0 ∧ data e0 = v) ∨ DoAdd key v ∈ calls.

(** Every payload in the store and every payload a [Get] returned was
    written. *)
Definition sound (c0 : Cache) (calls : list call) (st : State) : Prop :=
  op <$> goroutines st = calls ∧
  (∀ key e, entries (store st) !! key = Some e →
     written c0 calls key (data e)) ∧
  (∀ i g v (found : bool),
     goroutines st !! i = Some g → returned g = Some (v, found) →
     ∃ key, op g = DoGet key ∧
       if found then written c0 calls key v else v = []).

End concurrent.

(** ** Sample data for the examples *)

Module samples.
Import cache pokeapi main.

Definition pikachu : Pokemon :=
  {| ID := 25; Name := "pikachu"; BaseExperience := 112; Height := 4;
     Weight := 60; IsDefault := true; Order := 35;
     LocationAreaEncounters :=
       "https://pokeapi.co/api/v2/pokemon/25/encounters" |}.

Definition blissey : Pokemon :=
  {| ID := 242; Name := "blissey"; BaseExperience := 608; Height := 15;
     Weight := 468; IsDefault := true; Order := 173;
     LocationAreaEncounters :=
       "https://pokeapi.co/api/v2/pokemon/242/encounters" |}.

(** A remote side that knows two Pokemon, answers 404 for a third name
    and refuses every other connection.  The bodies stand for the JSON
    documents. *)
Definition sample_http_Get (url : string) : reply :=
  if bool_decide (url = "https://pokeapi.co/api/v2/pokemon/pikachu/")
  then Replied (mkResponse 200 (inl [Byte.x70]))
  else if bool_decide (url = "https://pokeapi.co/api/v2/pokemon/blissey/")
  then Replied (mkResponse 200 (inl [Byte.x62]))
  else if bool_decide (url = "https://pokeapi.co/api/v2/pokemon/missingno/")
  then Replied (mkResponse 404 (inl []))
  else Refused "no such host".

Definition sample_json_Unmarshal (data : bytes) : Pokemon + string :=
  match data with
  | [Byte.x70] => inl pikachu
  | [Byte.x62] => inl blissey
  | _ => inr "unexpected end of JSON input"%string
  end.

Definition sample_config : config :=
  {| client := NewClient;
     nextURL := Some "https://pokeapi.co/api/v2/location-area/"%string;
     prevURL := None;
     pokedex := ∅ |}.

(** Two writers of distinct keys, a reader and a sweep, and one of their
    interleavings. *)
Definition sample_calls : list concurrent.call :=
  [concurrent.DoAdd "a" [Byte.x01]; concurrent.DoAdd "b" [Byte.x02];
   concurrent.DoGet "a"; concurrent.DoSweep].

Definition sample_schedule : list concurrent.action :=
  [concurrent.Run 0; concurrent.Run 1; concurrent.Run 0; concurrent.Run 0;
   concurrent.Run 0; concurrent.Run 1; concurrent.Run 1; concurrent.Run 1;
   concurrent.Elapse 50; concurrent.Run 2; concurrent.Run 3;
   concurrent.Run 2; concurrent.Run 2; concurrent.Run 3; concurrent.Run 3;
   concurrent.Run 3].

(** Two pages of location areas that point at each other; the bodies
    stand for the JSON documents. *)
Definition sample_page1 : string := "https://pokeapi.co/api/v2/location-area/".
Definition sample_page2 : string :=
  "https://pokeapi.co/api/v2/location-area/?offset=20&limit=20".

Definition sample_pages_http_Get (url : string) : reply :=
  if bool_decide (url = sample_page1)
  then Replied (mkResponse 200 (inl [Byte.x31]))
  else if bool_decide (url = sample_page2)
  then Replied (mkResponse 200 (inl [Byte.x32]))
  else Refused "no such host".

Definition sample_json_Unmarshal_areas (data : bytes)
    : LocationAreasResponse + string :=
  match data with
  | [Byte.x31] =>
      inl {| Count := 2; Next := Some sample_page2; Previous := None;
             Results :=
               [mkNamedResource "canalave-city-area"
                  "https://pokeapi.co/api/v2/location-area/1/"] |}
  | [Byte.x32] =>
      inl {| Count := 2; Next := None; Previous := Some sample_page1;
             Results :=
               [mkNamedResource "eterna-city-area"
                  "https://pokeapi.co/api/v2/location-area/2/"] |}
  | _ => inr "unexpected end of JSON input"%string
  end.

(** A remote side that is down, and one that answers every request with
    a body the decoders reject. *)
Definition sample_down_http_Get (url : string) : reply := Refused "down".

Definition sample_garbled_http_Get (url : string) : reply :=
  Replied (mkResponse 200 (inl [Byte.x3f])).

(** The first page shown, then the second. *)
Definition sample_after_map1 : option failure * config * IO :=
  commandMap sample_pages_http_Get sample_json_Unmarshal_areas 1
    sample_config [] (mkIO [] []).

Definition sample_after_map2 : option failure * config * IO :=
  commandMap sample_pages_http_Get sample_json_Unmarshal_areas 2
    (snd (fst sample_after_map1)) [] (snd sample_after_map1).

Definition sample_caught_config : config :=
  {| client := NewClient;
     nextURL := Some sample_page1;
     prevURL := None;
     pokedex := {[ "pikachu"%string := pikachu ]} |}.

End samples.

(** * Properties of the store *)

Section store_facts.
Import cache.
Implicit Types (c : Cache) (m : gmap string entry) (e : entry).
Implicit Types (now : Time) (key : string) (v : bytes).

Lemma Get_hit c key e :
  entries c !! key = Some e → Get key c = ((data e, true), c).
Proof. intros H. unfold Get. by rewrite H. Qed.

Lemma Get_miss c key :
  entries c !! key = None → Get key c = (([], false), c).
Proof. intros H. unfold Get. by rewrite H. Qed.

Lemma Add_lookup now key v c :
  entries (Add now key v c) !! key = Some (mkEntry now v).
Proof. apply lookup_insert_eq. Qed.

Lemma Add_lookup_ne now key key' v c :
  key ≠ key' → entries (Add now key v c) !! key' = entries c !! key'.
Proof. intros Hne. by apply lookup_insert_ne. Qed.

(** The loop of the sweep, started on the map [m0] and ranging over [m]:
    a key of [m] whose entry is expired is gone, every other key is as in
    [m0]. *)
Lemma reap_fold_lookup now (d : Duration) m0 m key :
  map_fold (reap_entry now d) m0 m !! key =
    match m !! key with
    | Some e => if expired now d e then None else m0 !! key
    | None => m0 !! key
    end.
Proof.
  revert key.
  apply (map_fold_weak_ind (λ r m', ∀ key,
    r !! key = match m' !! key with
               | Some e => if expired now d e then None else m0 !! key
               | None => m0 !! key
               end)).
  - intros key. by rewrite lookup_empty.
  - intros i x m' r Hfresh IH key. unfold reap_entry.
    destruct (decide (key = i)) as [->|Hne].
    + rewrite lookup_insert_eq. specialize (IH i). rewrite Hfresh in IH.
      destruct (expired now d x); [apply lookup_delete_eq | done].
    + rewrite lookup_insert_ne by done.
      destruct (expired now d x); [rewrite lookup_delete_ne by done|]; apply IH.
Qed.

Lemma sweep_lookup now c key :
  entries (sweep now c) !! key =
    match entries c !! key with
    | Some e => if expired now (ttl c) e then None else Some e
    | None => None
    end.
Proof.
  unfold sweep; simpl. rewrite reap_fold_lookup.
  destruct (entries c !! key) eqn:E; [|done]. by destruct (expired _ _ _).
Qed.

Lemma sweep_ttl now c : ttl (sweep now c) = ttl c.
Proof. done. Qed.

Lemma expired_true now (d : Duration) e :
  expired now d e = true ↔ now - createdAt e > d.
Proof. unfold expired, Since. by rewrite bool_decide_eq_true. Qed.

Lemma expired_false now (d : Duration) e :
  expired now d e = false ↔ now - createdAt e <= d.
Proof. unfold expired, Since. rewrite bool_decide_eq_false. lia. Qed.

Lemma filter_key_absent (l : list (string * entry)) key :
  key ∉ l.*1 → filter (λ kv, kv.1 = key) l = [].
Proof.
  induction l as [|[k x] l IH]; [done|]. rewrite fmap_cons. simpl.
  intros [Hne Hl]%not_elem_of_cons.
  rewrite filter_cons_False by (simpl; congruence). by apply IH.
Qed.

(** A map lists each key once. *)
Lemma one_entry_per_key m key :
  (length (filter (λ kv, kv.1 = key) (map_to_list m)) ≤ 1)%nat.
Proof.
  pose proof (NoDup_fst_map_to_list m) as Hnd.
  induction (map_to_list m) as [|[k x] l IH]; simpl; [lia|].
  rewrite fmap_cons in Hnd. apply NoDup_cons in Hnd as [Hnotin Hnd].
  rewrite filter_cons. simpl. case_decide as Hk; [|by apply IH].
  subst k. simpl. by rewrite filter_key_absent.
Qed.

Lemma Get_after_Add now key v c :
  fst (Get key (Add now key v c)) = (v, true).
Proof. by rewrite (Get_hit _ _ _ (Add_lookup now key v c)). Qed.

(** C1 (round trip): whatever the store holds, right after [Add key v]
    the call [Get key] returns the payload [v] and [true]. *)
Theorem Add_Get_round_trip now key v c :
  fst (Get key (Add now key v c)) = (v, true).
Proof. apply Get_after_Add. Qed.

(** C2 (overwrite): [Add key v1] at [t1] followed by [Add key v2] at [t2]
    leaves the store as [Add key v2] at [t2] alone does; [Get key]
    returns [(v2, true)], the entry carries the time of the second [Add],
    and the map lists [key] at most once. *)
Theorem Add_Add_last_write_wins (t1 t2 : Time) key (v1 v2 : bytes) c :
  let c' := Add t2 key v2 (Add t1 key v1 c) in
  c' = Add t2 key v2 c ∧
  fst (Get key c') = (v2, true) ∧
  createdAt <$> entries c' !! key = Some t2 ∧
  (length (filter (λ kv, kv.1 = key) (map_to_list (entries c'))) ≤ 1)%nat.
Proof.
  cbv zeta. split_and!.
  - unfold Add; simpl. f_equal. apply insert_insert_eq.
  - apply Get_after_Add.
  - by rewrite Add_lookup.
  - apply one_entry_per_key.
Qed.

(** C4 (no age check on read): if the map holds an entry for [key], then
    [Get key] returns its payload and [true] at every reading [now] of the
    clock, also when the entry is expired at [now]; the result is the same
    whatever the creation time of the entry and the ttl of the store. *)
Theorem Get_ignores_age now c key e :
  entries c !! key = Some e →
  fst (Get key c) = (data e, true) ∧
  (expired now (ttl c) e = true → fst (Get key c) = (data e, true)) ∧
  (∀ (t' : Time) (d' : Duration),
     fst (Get key {| entries := <[key := mkEntry t' (data e)]> (entries c);
                     ttl := d' |}) = fst (Get key c)).
Proof.
  intros H. rewrite (Get_hit _ _ _ H). split_and!; [done..|].
  intros t' d'.
  by rewrite (Get_hit _ key (mkEntry t' (data e))) by apply lookup_insert_eq.
Qed.

(** C9 (frame): [Get] returns its receiver as it found it, entry map and
    ttl; [Add key v] leaves the ttl and the entry of every other key as
    they were. *)
Theorem Get_Add_frame now key v c :
  snd (Get key c) = c ∧
  entries (snd (Get key c)) = entries c ∧
  ttl (snd (Get key c)) = ttl c ∧
  ttl (Add now key v c) = ttl c ∧
  (∀ key', key ≠ key' →
     entries (Add now key v c) !! key' = entries c !! key').
Proof.
  assert (snd (Get key c) = c) as Hget.
  { unfold Get. by destruct (entries c !! key). }
  rewrite Hget. split_and!; try done. intros key' Hne. by apply Add_lookup_ne.
Qed.

Lemma Get_ignores_age_witness :
  expired 150 100 (mkEntry 0 [Byte.x01]) = true ∧
  fst (Get "a" (Add 0 "a" [Byte.x01] (New 100))) = ([Byte.x01], true).
Proof.
  split; [reflexivity|].
  destruct (Get_ignores_age 150 (Add 0 "a" [Byte.x01] (New 100)) "a"
              (mkEntry 0 [Byte.x01])) as [H _].
  - vm_compute. reflexivity.
  - exact H.
Defined.

Lemma Get_Add_frame_witness :
  snd (Get "a" (Add 0 "b" [Byte.x01] (New 100))) =
    Add 0 "b" [Byte.x01] (New 100) ∧
  entries (Add 5 "a" [Byte.x02] (Add 0 "b" [Byte.x01] (New 100))) !! "b" =
    Some (mkEntry 0 [Byte.x01]).
Proof.
  destruct (Get_Add_frame 5 "a" [Byte.x02]
              (Add 0 "b" [Byte.x01] (New 100))) as (H1 & _ & _ & _ & H5).
  split; [exact H1|]. rewrite (H5 "b"); [|vm_compute; discriminate].
  vm_compute. reflexivity.
Defined.

End store_facts.

(** * Properties of the store under the periodic sweep *)

Section reaper_facts.
Import cache reaper.
Implicit Types (w : World) (tr : list event) (ev : event).
Implicit Types (key : string) (v : bytes).

Lemma snd_Get key (c : Cache) : snd (Get key c) = c.
Proof. unfold Get. by destruct (entries c !! key). Qed.

Lemma step_ttl w ev w' :
  step w ev = Some w' → ttl (store w') = ttl (store w).
Proof.
  destruct ev; simpl; try case_bool_decide; intros [= <-]; simpl;
    by rewrite ?snd_Get.
Qed.

Lemma run_ttl tr w w' :
  run w tr = Some w' → ttl (store w') = ttl (store w).
Proof.
  revert w. induction tr as [|ev tr IH]; simpl; intros w Hrun.
  - by simplify_eq.
  - destruct (step w ev) as [w1|] eqn:Hstep; [|done].
    rewrite <- (step_ttl _ _ _ Hstep). by apply IH.
Qed.

Lemma step_well_formed w ev w' :
  well_formed w → step w ev = Some w' → well_formed w'.
Proof.
  intros (Hpos & Hlo & Hhi) Hstep. unfold well_formed.
  rewrite (step_ttl _ _ _ Hstep).
  destruct ev; simpl in Hstep; try case_bool_decide; simplify_eq; simpl; lia.
Qed.

Lemma run_well_formed tr w w' :
  well_formed w → run w tr = Some w' → well_formed w'.
Proof.
  revert w. induction tr as [|ev tr IH]; simpl; intros w Hwf Hrun.
  - by simplify_eq.
  - destruct (step w ev) as [w1|] eqn:Hstep; [|done].
    eauto using step_well_formed.
Qed.

Lemma start_well_formed (s : Time) (d : Duration) :
  0 < d → well_formed (start s d).
Proof. unfold well_formed, start; simpl. lia. Qed.

(** The sweeps of a run from [w] happen at [next_tick w],
    [next_tick w + ttl], [next_tick w + 2 ttl], ... *)
Lemma sweep_times_from tr w :
  sweep_times w tr =
    (λ i : nat, next_tick w + Z.of_nat i * ttl (store w))
      <$> seq 0 (length (sweep_times w tr)).
Proof.
  revert w. induction tr as [|ev tr IH]; intros w; simpl; [done|].
  destruct (step w ev) as [w1|] eqn:Hstep; [|done].
  pose proof (step_ttl _ _ _ Hstep) as Httl.
  destruct ev; simpl in Hstep; try case_bool_decide; simplify_eq;
    try (rewrite IH at 1; simpl; by rewrite ?snd_Get).
  simpl. f_equal; [lia|].
  rewrite IH at 1. rewrite <- fmap_S_seq, <- list_fmap_compose.
  apply list_fmap_ext. intros _ i _. simpl. lia.
Qed.

(** A key that is absent and is not added stays absent. *)
Lemma run_absent key tr w w' :
  run w tr = Some w' → never_added key tr = true →
  entries (store w) !! key = None → entries (store w') !! key = None.
Proof.
  revert w. induction tr as [|ev tr IH]; simpl; intros w Hrun Hnever Habs.
  - by simplify_eq.
  - destruct (step w ev) as [w1|] eqn:Hstep; [|done].
    apply andb_true_iff in Hnever as [Hev Hnever].
    apply (IH w1); [done..|].
    destruct ev; cbn in Hstep, Hev; try case_bool_decide; simplify_eq;
      cbn; rewrite ?snd_Get; try done.
    + rewrite sweep_lookup. by rewrite Habs.
    + by rewrite Add_lookup_ne.
Qed.

Lemma step_aged t0 key v w ev w' :
  well_formed w → aged t0 key v w →
  step w ev = Some w' → adds_key key ev = false → aged t0 key v w'.
Proof.
  intros (Hpos & Hlo & Hhi) (Ht0 & Hcase) Hstep Hev. unfold aged.
  rewrite (step_ttl _ _ _ Hstep).
  destruct ev; cbn in Hstep, Hev; try case_bool_decide; simplify_eq;
    cbn; rewrite ?snd_Get.
  - split; [lia|]. destruct Hcase as [[? ?]|[? ?]]; [left|right]; split; (done || lia).
  - split; [done|]. rewrite sweep_lookup.
    destruct Hcase as [[Hin Hdue]|[Hout Hlate]].
    + rewrite Hin.
      destruct (expired (clock w) (ttl (store w)) (mkEntry t0 v)) eqn:Hexp.
      * apply expired_true in Hexp; simpl in Hexp. right. split; [done|lia].
      * apply expired_false in Hexp; simpl in Hexp. left. split; [done|lia].
    + rewrite Hout. by right.
  - split; [done|]. by rewrite Add_lookup_ne.
  - done.
Qed.

Lemma run_aged t0 key v tr w w' :
  well_formed w → aged t0 key v w →
  run w tr = Some w' → never_added key tr = true → aged t0 key v w'.
Proof.
  revert w. induction tr as [|ev tr IH]; simpl; intros w Hwf Haged Hrun Hnever.
  - by simplify_eq.
  - destruct (step w ev) as [w1|] eqn:Hstep; [|done].
    apply andb_true_iff in Hnever as [Hev Hnever].
    apply negb_true_iff in Hev.
    eauto using step_well_formed, step_aged.
Qed.

Lemma sweep_filter (now : Time) (c : Cache) :
  entries (sweep now c) =
    filter (λ kv, now - createdAt kv.2 <= ttl c) (entries c).
Proof.
  apply map_eq. intros key. rewrite sweep_lookup, map_lookup_filter.
  destruct (entries c !! key) as [e|] eqn:E; simpl; [|done].
  destruct (expired now (ttl c) e) eqn:Hexp.
  - apply expired_true in Hexp. rewrite option_guard_False; [done|lia].
  - apply expired_false in Hexp. by rewrite option_guard_True.
Qed.

(** The [i]-th sweep of a run from [w] happens when the clock reads
    [next_tick w + i ttl], and leaves the store it found swept at that
    reading. *)
Lemma sweeps_from tr : ∀ w (i : nat) (t : Time) (before after : Cache),
  sweeps w tr !! i = Some (t, before, after) →
  t = next_tick w + Z.of_nat i * ttl (store w) ∧
  after = sweep t before ∧ ttl before = ttl (store w).
Proof.
  induction tr as [|ev tr IH]; intros w i t before after; simpl; [done|].
  destruct (step w ev) as [w1|] eqn:Hstep; [|done].
  pose proof (step_ttl _ _ _ Hstep) as Httl.
  destruct ev; cbn in Hstep; try case_bool_decide; simplify_eq;
    try (intros Hi; apply IH in Hi; cbn in Hi; by rewrite ?snd_Get in Hi).
  destruct i as [|i]; cbn.
  - intros [= <- <- <-]. split_and!; [lia|done|done].
  - intros Hi. apply IH in Hi as (-> & -> & ->). cbn.
    rewrite !sweep_ttl. split_and!; [lia|done..].
Qed.

(** Time does not pass a tick that is due: after [n] sweeps the clock
    reads at most the time of the next one, [n] periods after the first
    tick. *)
Lemma run_ticks tr : ∀ w w',
  run w tr = Some w' → 0 <= ttl (store w) → clock w <= next_tick w →
  clock w' <= next_tick w' ∧
  next_tick w' = next_tick w + Z.of_nat (length (sweeps w tr)) * ttl (store w).
Proof.
  induction tr as [|ev tr IH]; intros w w' Hrun Httl Hdue; simpl in *.
  - simplify_eq. split; [done|lia].
  - destruct (step w ev) as [w1|] eqn:Hstep; [|done].
    pose proof (step_ttl _ _ _ Hstep) as Hsame.
    destruct (IH w1 w' Hrun) as [Hdue' Hnext'].
    { by rewrite Hsame. }
    { destruct ev; cbn in Hstep; try case_bool_decide; simplify_eq; cbn; lia. }
    split; [done|]. rewrite Hnext', Hsame.
    destruct ev; cbn in Hstep; try case_bool_decide; simplify_eq; cbn [length];
      cbn; lia.
Qed.

(** C5 (sweep): a sweep run when the clock reads [now] keeps exactly the
    entries whose age [now - createdAt] is at most the ttl, unchanged, and
    deletes the others, those of age strictly above the ttl; the ttl is
    as before.  In a run of a store made when the clock reads [s] with ttl
    [d], every tick runs this sweep on the store: the [i]-th tick comes
    when the clock reads [s + (i + 1) d] and leaves the store it found
    with exactly the entries of age at most [d]; and for [d > 0] no tick
    is skipped: after [n] sweeps the clock reads at most
    [s + (n + 1) d]. *)
Theorem sweep_deletes_exactly_the_expired
    (now : Time) (c : Cache) (s : Time) (d : Duration) tr :
  entries (sweep now c) =
    filter (λ kv, now - createdAt kv.2 <= ttl c) (entries c) ∧
  ttl (sweep now c) = ttl c ∧
  sweep_times (start s d) tr =
    (λ i : nat, s + (Z.of_nat i + 1) * d)
      <$> seq 0 (length (sweep_times (start s d) tr)) ∧
  (∀ (i : nat) (t : Time) (before after : Cache),
     sweeps (start s d) tr !! i = Some (t, before, after) →
     t = s + (Z.of_nat i + 1) * d ∧
     after = sweep t before ∧
     entries after =
       filter (λ kv, t - createdAt kv.2 <= d) (entries before) ∧
     ttl after = d) ∧
  (∀ w, 0 < d → run (start s d) tr = Some w →
     clock w <= s + (Z.of_nat (length (sweeps (start s d) tr)) + 1) * d).
Proof.
  split_and!.
  - apply sweep_filter.
  - done.
  - rewrite sweep_times_from at 1. apply list_fmap_ext.
    intros _ i _. simpl. lia.
  - intros i t before after Hi.
    apply sweeps_from in Hi as (-> & -> & Httl). cbn in *.
    split_and!; [lia|done| |by rewrite sweep_ttl].
    by rewrite sweep_filter, Httl.
  - intros w Hd Hrun.
    destruct (run_ticks _ _ _ Hrun) as [Hdue Hnext]; cbn; [lia..|].
    cbn in Hnext. lia.
Qed.

(** C3 (miss): [Get key] returns [false], with the nil payload and with
    no error value (its result is a pair of a payload and a boolean), on
    a store just made by [New], after any run from a new store in which
    [key] was never added, and after a sweep that found the entry of
    [key] expired. *)
Theorem Get_miss_is_false key :
  (∀ d : Duration, entries (New d) = ∅ ∧ fst (Get key (New d)) = ([], false)) ∧
  (∀ (s : Time) (d : Duration) tr w,
     run (start s d) tr = Some w → never_added key tr = true →
     fst (Get key (store w)) = ([], false)) ∧
  (∀ (now : Time) (c : Cache) (e : entry),
     entries c !! key = Some e → expired now (ttl c) e = true →
     fst (Get key (sweep now c)) = ([], false)).
Proof.
  split_and!.
  - intros d. split; [done|]. by rewrite Get_miss.
  - intros s d tr w Hrun Hnever. rewrite Get_miss; [done|].
    by apply (run_absent key tr (start s d)).
  - intros now c e Hin Hexp. rewrite Get_miss; [done|].
    rewrite sweep_lookup, Hin. by rewrite Hexp.
Qed.

(** C6 (bounded staleness): in a run of a store with ttl [d > 0] whose
    sweeps fire every [d], an entry added when the clock reads [t0] and
    not added again is returned by [Get] whenever the clock reads at most
    [t0 + d], and is not found whenever the clock reads more than
    [t0 + 2 d]. *)
Theorem bounded_staleness (s : Time) (d : Duration) pre w0 key v post w :
  0 < d →
  run (start s d) pre = Some w0 →
  run w0 (CallAdd key v :: post) = Some w →
  never_added key post = true →
  (clock w <= clock w0 + d → fst (Get key (store w)) = (v, true)) ∧
  (clock w0 + 2 * d < clock w → fst (Get key (store w)) = ([], false)).
Proof.
  intros Hd Hpre Hrun Hnever.
  pose proof (run_well_formed _ _ _ (start_well_formed s d Hd) Hpre) as Hwf0.
  pose proof (run_ttl _ _ _ Hpre) as Httl0. simpl in Httl0.
  simpl in Hrun.
  set (w1 := {| store := Add (clock w0) key v (store w0); clock := clock w0;
                next_tick := next_tick w0 |}) in Hrun.
  assert (well_formed w1) as Hwf1 by done.
  assert (aged (clock w0) key v w1) as Haged1.
  { destruct Hwf0 as (? & ? & ?). split; [done|]. left.
    split; [apply Add_lookup|]. simpl. lia. }
  pose proof (run_aged _ _ _ _ _ _ Hwf1 Haged1 Hrun Hnever) as (Hle & Hcase).
  pose proof (run_well_formed _ _ _ Hwf1 Hrun) as (_ & Hlo & _).
  pose proof (run_ttl _ _ _ Hrun) as Httl. simpl in Httl.
  rewrite Httl0 in Httl.
  rewrite Httl in Hcase. split; intros Hclock.
  - destruct Hcase as [[Hin _]|[_ Hlate]]; [|lia]. by rewrite (Get_hit _ _ _ Hin).
  - destruct Hcase as [[_ Hdue]|[Hout _]]; [lia|]. by rewrite Get_miss.
Qed.

(** The second tick of a store with ttl 100 made at 0 comes at 200 and
    deletes the entry added at 50. *)
Lemma sweep_deletes_exactly_the_expired_witness :
  ∃ before after,
    sweeps (start 0 100)
      [Wait 50; CallAdd "a" [Byte.x01]; Wait 50; Tick; Wait 100; Tick; Wait 10]
      !! 1%nat = Some (200, before, after) ∧
    entries before !! "a" = Some (mkEntry 50 [Byte.x01]) ∧
    after = sweep 200 before ∧
    entries after !! "a" = None.
Proof.
  eexists _, _. split; [vm_compute; reflexivity|].
  split; [vm_compute; reflexivity|].
  destruct (sweep_deletes_exactly_the_expired 0 (New 100) 0 100
              [Wait 50; CallAdd "a" [Byte.x01]; Wait 50; Tick; Wait 100; Tick;
               Wait 10]) as (_ & _ & _ & Hlog & _).
  edestruct (Hlog 1%nat) as (_ & Hafter & _ & _); [vm_compute; reflexivity|].
  split; [exact Hafter|]. vm_compute. reflexivity.
Defined.

Lemma Get_miss_is_false_witness :
  fst (Get "b" (sweep 250 (Add 0 "b" [Byte.x01] (New 100)))) = ([], false) ∧
  (∃ w, run (start 0 100) [CallAdd "a" [Byte.x01]; Wait 100; Tick; CallGet "a"]
          = Some w ∧
        fst (Get "b" (store w)) = ([], false)).
Proof.
  destruct (Get_miss_is_false "b") as (_ & Hnever & Hreaped). split.
  - apply (Hreaped 250 (Add 0 "b" [Byte.x01] (New 100))
             (mkEntry 0 [Byte.x01])); vm_compute; reflexivity.
  - eexists. split; [vm_compute; reflexivity|].
    apply (Hnever 0 100
             [CallAdd "a" [Byte.x01]; Wait 100; Tick; CallGet "a"]);
      vm_compute; reflexivity.
Defined.

(** The scenario of the specification, in milliseconds: ttl 100, the
    entry added at 0, read at 10, and read again at 250. *)
Lemma bounded_staleness_witness :
  (∃ w, run (start 0 100)
          [CallAdd "a" [Byte.x01; Byte.x02; Byte.x03]; Wait 10] = Some w ∧
        clock w = 10 ∧
        fst (Get "a" (store w)) = ([Byte.x01; Byte.x02; Byte.x03], true)) ∧
  (∃ w, run (start 0 100)
          [CallAdd "a" [Byte.x01; Byte.x02; Byte.x03];
           Wait 100; Tick; Wait 100; Tick; Wait 50] = Some w ∧
        clock w = 250 ∧
        fst (Get "a" (store w)) = ([], false)).
Proof.
  split; eexists; (split; [vm_compute; reflexivity|]);
    (split; [reflexivity|]).
  - apply (bounded_staleness 0 100 [] (start 0 100) "a"
             [Byte.x01; Byte.x02; Byte.x03] [Wait 10]);
      [lia | reflexivity | vm_compute; reflexivity | reflexivity
      | vm_compute; discriminate].
  - apply (bounded_staleness 0 100 [] (start 0 100) "a"
             [Byte.x01; Byte.x02; Byte.x03]
             [Wait 100; Tick; Wait 100; Tick; Wait 50]);
      [lia | reflexivity | vm_compute; reflexivity | reflexivity
      | vm_compute; reflexivity].
Defined.

End reaper_facts.

(** * Properties of the fetch layer *)

Section fetch_facts.
Import cache pokeapi.
Variable http_Get : string → reply.
Implicit Types (c : Client) (io : IO) (url : string) (now : Time).

Lemma set_cache_same c : set_cache c (cache c) = c.
Proof. by destruct c. Qed.

Lemma fetch_hit now url c io e :
  entries (cache c) !! url = Some e →
  fetchWithCache http_Get now url c io =
    (Ok (data e), c, Println "(using cached data)" io).
Proof.
  intros Hin. unfold fetchWithCache.
  by rewrite (Get_hit _ _ _ Hin), set_cache_same.
Qed.

Lemma fetch_miss now url c io :
  entries (cache c) !! url = None →
  fetchWithCache http_Get now url c io =
    match http_Get url with
    | Refused cause => (Err (FailedToFetch cause), c, request url io)
    | Replied resp =>
        if bool_decide (StatusCode resp ≠ StatusOK)
        then (Err (APIStatus (StatusCode resp)), c, request url io)
        else
          match Body resp with
          | inr cause => (Err (FailedToRead cause), c, request url io)
          | inl data =>
              (Ok data, set_cache c (Add now url data (cache c)),
               request url io)
          end
    end.
Proof.
  intros Hout. unfold fetchWithCache.
  rewrite (Get_miss _ _ Hout), set_cache_same. done.
Qed.

(** C7 (cache before network): [fetchWithCache] looks the URL up with
    [Get] first.  On a hit it returns the cached payload, sends no
    request and leaves the cache as it is.  On a miss it sends one
    request; it calls [Add] with the URL and the body exactly when the
    request succeeds with status 200 and the body is read; on a network
    error or another status it returns an error and the cache is as it
    was. *)
Theorem fetchWithCache_cache_then_network now url c io :
  let '(r, c', io') := fetchWithCache http_Get now url c io in
  (∀ e, entries (cache c) !! url = Some e →
     r = Ok (data e) ∧ c' = c ∧ requests io' = requests io) ∧
  (entries (cache c) !! url = None →
     requests io' = requests io ++ [url] ∧
     match http_Get url with
     | Refused cause => r = Err (FailedToFetch cause) ∧ c' = c
     | Replied resp =>
         if bool_decide (StatusCode resp = 200)
         then
           match Body resp with
           | inl data =>
               r = Ok data ∧ cache c' = Add now url data (cache c)
           | inr cause => r = Err (FailedToRead cause) ∧ c' = c
           end
         else r = Err (APIStatus (StatusCode resp)) ∧ c' = c
     end) ∧
  (cache c' ≠ cache c →
     entries (cache c) !! url = None ∧
     ∃ resp data,
       http_Get url = Replied resp ∧ StatusCode resp = 200 ∧
       Body resp = inl data ∧ r = Ok data ∧
       cache c' = Add now url data (cache c)).
Proof.
  destruct (entries (cache c) !! url) as [e|] eqn:Hlook.
  - rewrite (fetch_hit _ _ _ _ _ Hlook). split_and!.
    + intros e' [= <-]. done.
    + done.
    + done.
  - rewrite (fetch_miss _ _ _ _ Hlook).
    destruct (http_Get url) as [cause|resp] eqn:Hnet; [done|].
    unfold StatusOK.
    destruct (decide (StatusCode resp = 200)) as [Hstatus|Hstatus].
    2: { rewrite (bool_decide_true (_ ≠ _)), (bool_decide_false (_ = _))
           by done. done. }
    rewrite (bool_decide_false (_ ≠ _)), (bool_decide_true (_ = _))
      by (done || by intros ?).
    destruct (Body resp) as [body|cause] eqn:Hbody; [|done].
    split_and!; [done..|].
    intros _. split; [done|]. by exists resp, body.
Qed.

End fetch_facts.

Section fetch_examples.
Import cache pokeapi samples.

Lemma fetchWithCache_cache_then_network_witness :
  snd (fst (fetchWithCache sample_http_Get 7
              "https://pokeapi.co/api/v2/pokemon/missingno/" NewClient
              (mkIO [] []))) = NewClient ∧
  cache (snd (fst (fetchWithCache sample_http_Get 7
              "https://pokeapi.co/api/v2/pokemon/pikachu/" NewClient
              (mkIO [] [])))) =
    Add 7 "https://pokeapi.co/api/v2/pokemon/pikachu/" [Byte.x70]
      (cache NewClient).
Proof.
  split.
  - pose proof (fetchWithCache_cache_then_network sample_http_Get 7
                  "https://pokeapi.co/api/v2/pokemon/missingno/" NewClient
                  (mkIO [] [])) as H.
    destruct (fetchWithCache _ _ _ _ _) as [[r c'] io'].
    destruct H as (_ & H & _). specialize (H eq_refl).
    destruct H as [_ H]. vm_compute in H. apply H.
  - pose proof (fetchWithCache_cache_then_network sample_http_Get 7
                  "https://pokeapi.co/api/v2/pokemon/pikachu/" NewClient
                  (mkIO [] [])) as H.
    destruct (fetchWithCache _ _ _ _ _) as [[r c'] io'].
    destruct H as (_ & H & _). specialize (H eq_refl).
    destruct H as [_ H]. simpl in H. apply H.
Defined.

End fetch_examples.

(** * Properties of the catch command *)

Section catch_facts.
Import cache pokeapi main.
Variable http_Get : string → reply.
Variable json_Unmarshal : bytes → Pokemon + string.

(** C10 (catch threshold): once the Pokemon is fetched, [commandCatch]
    reports a catch exactly when the roll, a value of [rand.Intn(400)],
    is at least [min(BaseExperience, 400)]; it then stores the Pokemon
    in the pokedex, and otherwise leaves the pokedex alone.  For a
    Pokemon of base experience 400 or more no roll is a catch, and the
    pokedex is never changed. *)
Theorem commandCatch_threshold
    (now : Time) (roll : Z) (cfg : config) (name : string)
    (rest : list string) (io : IO) (p : Pokemon) (c1 : Client) (io1 : IO) :
  GetPokemon http_Get json_Unmarshal now name (client cfg)
    (Println ("Throwing a Pokeball at " ++ name ++ "...") io)
    = (Ok p, c1, io1) →
  Intn_returns maxBaseExp roll →
  let '(err, cfg', io') :=
    commandCatch http_Get json_Unmarshal now roll cfg (name :: rest) io in
  err = None ∧
  (reports_catch name io1 io' ↔ roll >= Z.min (BaseExperience p) 400) ∧
  (roll >= Z.min (BaseExperience p) 400 →
     pokedex cfg' = <[name := p]> (pokedex cfg)) ∧
  (roll < Z.min (BaseExperience p) 400 → pokedex cfg' = pokedex cfg) ∧
  (400 <= BaseExperience p →
     pokedex cfg' = pokedex cfg ∧ ¬ reports_catch name io1 io').
Proof.
  intros Hfetch [Hlo Hhi]. unfold maxBaseExp in Hhi.
  unfold commandCatch. rewrite Hfetch. unfold maxBaseExp.
  assert (∀ l : list string, (stdout io1 ++ l = stdout io1 ++
            [(name ++ " was caught!")%string;
             "You may now inspect it with the inspect command."%string])
          → length l = 2%nat) as Hlen.
  { intros l Heq. apply app_inv_head in Heq. by subst l. }
  case_bool_decide as Hroll; simpl; split_and!.
  - done.
  - split; [done|]. intros _. unfold reports_catch; simpl.
    by rewrite <- app_assoc.
  - done.
  - intros. lia.
  - intros. lia.
  - done.
  - unfold reports_catch; simpl. split; [|intros; lia].
    intros Heq%Hlen. done.
  - intros. lia.
  - done.
  - intros _. split; [done|]. unfold reports_catch; simpl.
    intros Heq%Hlen. done.
Qed.

End catch_facts.

Section catch_examples.
Import cache pokeapi main samples.

Lemma commandCatch_threshold_witness :
  pokedex (snd (fst (commandCatch sample_http_Get sample_json_Unmarshal
                       0 150 sample_config ["pikachu"] (mkIO [] []))))
    = {[ "pikachu" := pikachu ]} ∧
  pokedex (snd (fst (commandCatch sample_http_Get sample_json_Unmarshal
                       0 399 sample_config ["blissey"] (mkIO [] []))))
    = ∅.
Proof.
  split.
  - pose proof (commandCatch_threshold sample_http_Get sample_json_Unmarshal
                  0 150 sample_config "pikachu" [] (mkIO [] []) pikachu
                  _ _ eq_refl) as H.
    destruct (commandCatch _ _ _ _ _ _ _) as [[err cfg'] io'].
    destruct H as (_ & _ & H & _); [vm_compute; split; congruence|].
    simpl. rewrite H; [reflexivity|]. vm_compute. congruence.
  - pose proof (commandCatch_threshold sample_http_Get sample_json_Unmarshal
                  0 399 sample_config "blissey" [] (mkIO [] []) blissey
                  _ _ eq_refl) as H.
    destruct (commandCatch _ _ _ _ _ _ _) as [[err cfg'] io'].
    destruct H as (_ & _ & _ & _ & H); [vm_compute; split; congruence|].
    simpl. destruct H as [H _]; [vm_compute; congruence|]. exact H.
Defined.

End catch_examples.

(** * Properties of concurrent calls *)

Section concurrent_facts.
Import cache concurrent.
Implicit Types (st : State) (g : goroutine) (gs : list goroutine).
Implicit Types (w : goroutine → nat) (f : goroutine → bool).

Lemma tally_insert w gs i g g' :
  gs !! i = Some g →
  (tally w (<[i := g']> gs) + w g = tally w gs + w g')%nat.
Proof.
  revert i. induction gs as [|g0 gs IH]; intros [|i] Hi; simplify_eq/=.
  - lia.
  - specialize (IH i Hi). lia.
Qed.

Lemma tally_lookup w gs i g :
  gs !! i = Some g → (w g ≤ tally w gs)%nat.
Proof.
  revert i. induction gs as [|g0 gs IH]; intros [|i] Hi; simplify_eq/=.
  - lia.
  - specialize (IH i Hi). lia.
Qed.

Lemma tally_lookup_two w gs i j gi gj :
  i ≠ j → gs !! i = Some gi → gs !! j = Some gj →
  (w gi + w gj ≤ tally w gs)%nat.
Proof.
  revert i j. induction gs as [|g0 gs IH]; intros [|i] [|j] Hne Hi Hj;
    simplify_eq/=.
  - pose proof (tally_lookup w gs j gj Hj). lia.
  - pose proof (tally_lookup w gs i gi Hi). lia.
  - assert (i ≠ j) as Hne' by congruence.
    specialize (IH i j Hne' Hi Hj). lia.
Qed.

Lemma tally_none f gs :
  (∀ i g, gs !! i = Some g → f g = false) → tally (one_if f) gs = 0%nat.
Proof.
  induction gs as [|g0 gs IH]; intros Hall; simpl; [done|].
  rewrite IH.
  - unfold one_if. by rewrite (Hall 0%nat g0).
  - intros i g Hi. by apply (Hall (S i)).
Qed.

Lemma find_goroutine f gs :
  (∃ i g, gs !! i = Some g ∧ f g = true) ∨
  (∀ i g, gs !! i = Some g → f g = false).
Proof.
  induction gs as [|g0 gs IH].
  - right. intros i g Hi. by rewrite lookup_nil in Hi.
  - destruct (f g0) eqn:Hf0.
    + left. by exists 0%nat, g0.
    + destruct IH as [(i & g & Hi & Hf)|Hnone].
      * left. by exists (S i), g.
      * right. intros [|i] g Hi; simplify_eq/=; eauto.
Qed.

Lemma step_lock_inv st a st' :
  lock_inv st → step st a = Some st' → lock_inv st'.
Proof.
  intros (Hw & Hr & Hp & Hbad & Hexcl) Hstep.
  destruct a as [i|d]; simpl in Hstep.
  2: { case_bool_decide; simplify_eq. done. }
  destruct (goroutines st !! i) as [g|] eqn:Hi; [|done].
  destruct (exec _ _ _ g) as [[[c m] g']|] eqn:Hexec; [|done].
  simplify_eq. unfold lock_inv; simpl.
  pose proof (tally_insert (one_if holds_write) _ i g g' Hi) as Tw.
  pose proof (tally_insert (one_if holds_read) _ i g g' Hi) as Tr.
  pose proof (tally_insert (one_if waiting) _ i g g' Hi) as Tp.
  pose proof (tally_insert (one_if reader_waiting) _ i g g' Hi) as Tb.
  destruct st as [c0 [wr rd pd] now gs]; simpl in *.
  destruct g as [o p r s]. unfold exec in Hexec; simpl in Hexec.
  destruct p, o; simpl in Hexec;
    repeat match type of Hexec with
           | context [if ?b then _ else _] => destruct b eqn:?
           | context [Get ?k ?c] => destruct (Get k c) as [? ?]
           end;
    simplify_eq;
    unfold one_if, holds_write, holds_read, waiting, reader_waiting, inside,
      move in *; simpl in *;
    destruct wr; simpl in *; try done;
    repeat match goal with
           | H : (_ =? _)%nat = true |- _ => apply Nat.eqb_eq in H
           end;
    split_and!; try lia; try done; intros; lia.
Qed.

Lemma run_lock_inv sch st st' :
  lock_inv st → run st sch = Some st' → lock_inv st'.
Proof.
  revert st. induction sch as [|a sch IH]; simpl; intros st Hinv Hrun.
  - by simplify_eq.
  - destruct (step st a) as [st1|] eqn:Hstep; [|done].
    eauto using step_lock_inv.
Qed.

Lemma init_lock_inv (c : Cache) (now : Time) (calls : list call) :
  lock_inv (init c now calls).
Proof.
  unfold lock_inv, init; simpl.
  assert (∀ f, (∀ o, f (spawn o) = false) →
            tally (one_if f) (map spawn calls) = 0%nat) as Hzero.
  { intros f Hf. apply tally_none. intros i g Hi.
    change (map spawn calls) with (spawn <$> calls) in Hi.
    apply list_lookup_fmap_Some in Hi as (o & -> & _). apply Hf. }
  rewrite !Hzero by done. done.
Qed.

(** A goroutine inside its critical section holds the mutex in its mode. *)
Lemma lock_inv_held st i g :
  lock_inv st → goroutines st !! i = Some g → inside g = true →
  if writes (op g)
  then writer (mu st) = true ∧ readers (mu st) = 0%nat
  else writer (mu st) = false ∧ (0 < readers (mu st))%nat.
Proof.
  intros (Hw & Hr & _ & _ & Hexcl) Hi Hin.
  pose proof (tally_lookup (one_if holds_write) _ i g Hi) as Lw.
  pose proof (tally_lookup (one_if holds_read) _ i g Hi) as Lr.
  rewrite Hw in Lw. rewrite Hr in Lr.
  unfold one_if, holds_write, holds_read in Lw, Lr. rewrite Hin in Lw, Lr.
  destruct (writes (op g)); simpl in *.
  - destruct (writer (mu st)); [auto|lia].
  - destruct (writer (mu st)); [|split; [done|lia]].
    specialize (Hexcl eq_refl). lia.
Qed.

Lemma lock_inv_no_conflict st : lock_inv st → ¬ conflict st.
Proof.
  intros Hinv (i & j & gi & gj & Hne & Hi & Hj & Hini & Hinj & Hwr).
  pose proof (lock_inv_held st i gi Hinv Hi Hini) as Hheld_i.
  pose proof (lock_inv_held st j gj Hinv Hj Hinj) as Hheld_j.
  destruct Hinv as (Hw & _).
  pose proof (tally_lookup_two (one_if holds_write) _ i j gi gj Hne Hi Hj) as L.
  rewrite Hw in L.
  unfold one_if, holds_write in L. rewrite Hini, Hinj in L.
  destruct (writes (op gi)), (writes (op gj)); simpl in *;
    destruct Hwr as [?|?]; try done;
    destruct (writer (mu st)); try lia; naive_solver.
Qed.

Lemma exec_inside (c : Cache) (m : RWMutex) (now : Time) g :
  inside g = true → is_Some (exec c m now g).
Proof.
  destruct g as [o p r s]. unfold inside, exec; simpl.
  destruct p, o; try done; intros _; try by eexists.
  destruct (Get key c) as [? ?]. by eexists.
Qed.

Lemma step_Run_Some st i g :
  goroutines st !! i = Some g →
  is_Some (exec (store st) (mu st) (clock st) g) →
  ∃ st', step st (Run i) = Some st'.
Proof.
  intros Hi [[[c m] g'] Hexec]. simpl. rewrite Hi, Hexec. by eexists.
Qed.

Lemma all_done_false st :
  all_done st = false →
  ∃ i g, goroutines st !! i = Some g ∧ negb (finished g) = true.
Proof.
  intros Hnot.
  destruct (find_goroutine (λ g, negb (finished g)) (goroutines st))
    as [?|Hall]; [done|].
  exfalso. unfold all_done in Hnot.
  assert (forallb finished (goroutines st) = true) as Hyes; [|congruence].
  apply forallb_forall. intros g Hin.
  apply list_elem_of_In, list_elem_of_lookup in Hin as [i Hi].
  apply Hall in Hi. by destruct (finished g).
Qed.

(** No deadlock: while a goroutine has not returned, some goroutine can
    run its next statement. *)
Lemma progress st :
  lock_inv st → all_done st = false → ∃ i st', step st (Run i) = Some st'.
Proof.
  intros (Hw & Hr & Hp & Hbad & Hexcl) Hnot.
  destruct (find_goroutine inside (goroutines st))
    as [(i & g & Hi & Hin)|Hout].
  { exists i. eauto using step_Run_Some, exec_inside. }
  assert (writer (mu st) = false ∧ readers (mu st) = 0%nat) as [Hfree Hnone].
  { rewrite <- Hr. rewrite (tally_none holds_read).
    2:{ intros i g Hi. unfold holds_read. by rewrite (Hout i g Hi). }
    rewrite (tally_none holds_write) in Hw.
    2:{ intros i g Hi. unfold holds_write. by rewrite (Hout i g Hi). }
    by destruct (writer (mu st)). }
  destruct (find_goroutine waiting (goroutines st))
    as [(i & g & Hi & Hwait)|Hnowait].
  { exists i. apply (step_Run_Some st i g Hi).
    pose proof (tally_lookup (one_if reader_waiting) _ i g Hi) as L.
    rewrite Hbad in L.
    destruct g as [o p r s]. unfold one_if, reader_waiting, waiting in *.
    unfold exec. simpl in *. rewrite Hfree, Hnone.
    destruct p; try done. destruct o; simpl in *; try lia; by eexists. }
  apply all_done_false in Hnot as (i & g & Hi & Hrunning).
  exists i. apply (step_Run_Some st i g Hi).
  assert (pending (mu st) = 0%nat) as Hnopending.
  { rewrite <- Hp. by apply tally_none. }
  specialize (Hout i g Hi). specialize (Hnowait i g Hi).
  destruct g as [o p r s]. unfold inside, waiting, finished, exec in *.
  simpl in *. rewrite Hfree, Hnopending.
  destruct p; try done. destruct o; by eexists.
Qed.

Lemma step_fuel st i st' :
  step st (Run i) = Some st' →
  (tally fuel (goroutines st') < tally fuel (goroutines st))%nat.
Proof.
  simpl. intros Hstep.
  destruct (goroutines st !! i) as [g|] eqn:Hi; [|done].
  destruct (exec _ _ _ g) as [[[c m] g']|] eqn:Hexec; [|done].
  simplify_eq. simpl.
  pose proof (tally_insert fuel _ i g g' Hi) as T.
  assert (fuel g' < fuel g)%nat; [|lia].
  destruct g as [o p r s]. unfold exec in Hexec; simpl in Hexec.
  destruct p, o; simpl in Hexec;
    repeat match type of Hexec with
           | context [if ?b then _ else _] => destruct b eqn:?
           | context [Get ?k ?c] => destruct (Get k c) as [? ?]
           end;
    simplify_eq; unfold fuel; simpl; lia.
Qed.

(** Every call completes: from every state the invariant allows, some
    schedule runs all goroutines to their return. *)
Lemma completes n : ∀ st,
  lock_inv st → (tally fuel (goroutines st) ≤ n)%nat →
  ∃ sch st', run st sch = Some st' ∧ all_done st' = true.
Proof.
  induction n as [|n IH]; intros st Hinv Hfuel;
    (destruct (all_done st) eqn:Hdone; [by exists [], st|]);
    destruct (progress st Hinv Hdone) as (i & st1 & Hstep);
    pose proof (step_fuel _ _ _ Hstep) as Hless; [lia|].
  destruct (IH st1) as (sch & st' & Hrun & Hall);
    [by eapply step_lock_inv | lia |].
  exists (Run i :: sch), st'. cbn [run]. by rewrite Hstep.
Qed.

(** What one statement does to the store and to the stamp of the
    goroutine: nothing, the assignment of [Add], or the sweep. *)
Lemma exec_effect (c c' : Cache) (m m' : RWMutex) (now : Time) g g' :
  exec c m now g = Some (c', m', g') →
  op g' = op g ∧
  ((c' = c ∧ stamp g' = stamp g) ∨
   (∃ key v, op g = DoAdd key v ∧ c' = Add now key v c ∧
             stamp g' = Some now) ∨
   (op g = DoSweep ∧ c' = sweep now c ∧ stamp g' = stamp g)).
Proof.
  destruct g as [o p r s]. unfold exec; simpl. intros Hexec.
  destruct p, o; simpl in Hexec;
    repeat match type of Hexec with
           | context [if ?b then _ else _] => destruct b eqn:?
           | context [Get ?k ?c] =>
               pose proof (snd_Get k c); destruct (Get k c) as [? ?]
           end;
    simplify_eq/=; split; try done; eauto 10.
Qed.

Lemma step_ops st a st' :
  step st a = Some st' → op <$> goroutines st' = op <$> goroutines st.
Proof.
  destruct a as [i|d]; simpl; intros Hstep.
  2: { case_bool_decide; by simplify_eq. }
  destruct (goroutines st !! i) as [g|] eqn:Hi; [|done].
  destruct (exec _ _ _ g) as [[[c m] g']|] eqn:Hexec; [|done].
  simplify_eq. simpl. apply exec_effect in Hexec as [Hop _].
  rewrite list_fmap_insert, Hop. apply list_insert_id.
  by rewrite list_lookup_fmap, Hi.
Qed.

Lemma sole_writer_ops st st' i key :
  op <$> goroutines st' = op <$> goroutines st →
  sole_writer i key st' → sole_writer i key st.
Proof.
  intros Hops Hsole j g Hj Hadds.
  assert ((op <$> goroutines st') !! j = Some (op g)) as Hj'.
  { by rewrite Hops, list_lookup_fmap, Hj. }
  apply list_lookup_fmap_Some in Hj' as (g' & Hop & Hj').
  apply (Hsole j g' Hj'). unfold adds in *. by rewrite <- Hop.
Qed.

Lemma step_kept_inv st a st' :
  kept_inv st → step st a = Some st' → kept_inv st'.
Proof.
  intros Hkept Hstep i g key v t0 Hi Hop Hstamp Hsole.
  apply (sole_writer_ops st st' i key (step_ops _ _ _ Hstep)) in Hsole.
  destruct a as [j|d]; simpl in Hstep.
  2: { case_bool_decide; simplify_eq. simpl in *.
       destruct (Hkept i g key v t0 Hi Hop Hstamp Hsole) as [Hle Hcase].
       split; [lia|]. destruct Hcase as [?|[? ?]]; [by left|right].
       split; [done|lia]. }
  destruct (goroutines st !! j) as [gj|] eqn:Hj; [|done].
  destruct (exec _ _ _ gj) as [[[c m] gj']|] eqn:Hexec; [|done].
  simplify_eq. simpl in *.
  apply exec_effect in Hexec as [Hop' Heffect].
  apply list_lookup_insert_Some in Hi as [(-> & -> & Hlen)|[Hne Hi]].
  - (* the goroutine itself ran *)
    rewrite Hop' in Hop.
    destruct Heffect as [[-> Hst]|[(key' & v' & Hadd & -> & Hst)|(Hsw & _)]].
    + rewrite Hst in Hstamp. by apply (Hkept i gj key v t0).
    + rewrite Hop in Hadd. simplify_eq. split; [lia|]. left.
      apply Add_lookup.
    + congruence.
  - (* another goroutine ran *)
    destruct (Hkept i g key v t0 Hi Hop Hstamp Hsole) as [Hle Hcase].
    split; [done|].
    destruct Heffect as [[-> _]|[(key' & v' & Hadd & -> & _)|(_ & -> & _)]].
    + done.
    + assert (key' ≠ key) as Hother.
      { intros ->. apply Hne. apply (Hsole j gj Hj).
        unfold adds. rewrite Hadd. by apply bool_decide_eq_true. }
      rewrite Add_lookup_ne by done. done.
    + rewrite sweep_lookup. simpl.
      destruct Hcase as [Hin|[Hout Hlate]].
      * rewrite Hin.
        destruct (expired (clock st) (ttl (store st)) (mkEntry t0 v)) eqn:Hexp.
        -- apply expired_true in Hexp. simpl in Hexp. by right.
        -- by left.
      * rewrite Hout. by right.
Qed.

Lemma run_kept_inv sch st st' :
  kept_inv st → run st sch = Some st' → kept_inv st'.
Proof.
  revert st. induction sch as [|a sch IH]; simpl; intros st Hinv Hrun.
  - by simplify_eq.
  - destruct (step st a) as [st1|] eqn:Hstep; [|done].
    eauto using step_kept_inv.
Qed.

Lemma init_kept_inv (c : Cache) (now : Time) (calls : list call) :
  kept_inv (init c now calls).
Proof.
  intros i g key v t0 Hi _ Hstamp _. unfold init in Hi; simpl in Hi.
  change (map spawn calls) with (spawn <$> calls) in Hi.
  apply list_lookup_fmap_Some in Hi as (o & -> & _). done.
Qed.

Lemma step_stamped_inv st a st' :
  stamped_inv st → step st a = Some st' → stamped_inv st'.
Proof.
  intros Hst Hstep i g key v Hi Hop Hpos.
  destruct a as [j|d]; simpl in Hstep.
  2: { case_bool_decide; simplify_eq. by apply (Hst i g key v). }
  destruct (goroutines st !! j) as [gj|] eqn:Hj; [|done].
  destruct (exec _ _ _ gj) as [[[c m] gj']|] eqn:Hexec; [|done].
  simplify_eq. simpl in *.
  apply list_lookup_insert_Some in Hi as [(-> & -> & Hlen)|[Hne Hi]];
    [|by apply (Hst i g key v)].
  specialize (Hst i gj key v Hj).
  destruct gj as [o p r s]. unfold exec in Hexec; simpl in *.
  destruct p, o; simpl in Hexec;
    repeat match type of Hexec with
           | context [if ?b then _ else _] => destruct b eqn:?
           | context [Get ?k ?c] => destruct (Get k c) as [? ?]
           end;
    simplify_eq/=; try done; try (by destruct Hpos); eauto.
Qed.

Lemma run_stamped_inv sch st st' :
  stamped_inv st → run st sch = Some st' → stamped_inv st'.
Proof.
  revert st. induction sch as [|a sch IH]; simpl; intros st Hinv Hrun.
  - by simplify_eq.
  - destruct (step st a) as [st1|] eqn:Hstep; [|done].
    eauto using step_stamped_inv.
Qed.

Lemma init_stamped_inv (c : Cache) (now : Time) (calls : list call) :
  stamped_inv (init c now calls).
Proof.
  intros i g key v Hi _ Hpos. unfold init in Hi; simpl in Hi.
  change (map spawn calls) with (spawn <$> calls) in Hi.
  apply list_lookup_fmap_Some in Hi as (o & -> & _). by destruct Hpos.
Qed.

Lemma run_ops sch st st' :
  run st sch = Some st' → op <$> goroutines st' = op <$> goroutines st.
Proof.
  revert st. induction sch as [|a sch IH]; simpl; intros st Hrun.
  - by simplify_eq.
  - destruct (step st a) as [st1|] eqn:Hstep; [|done].
    rewrite (IH _ Hrun). by eapply step_ops.
Qed.

Lemma init_ops (c : Cache) (now : Time) (calls : list call) :
  op <$> goroutines (init c now calls) = calls.
Proof.
  unfold init; simpl. change (map spawn calls) with (spawn <$> calls).
  rewrite <- list_fmap_compose. apply list_fmap_id.
Qed.

End concurrent_facts.


(** * Further properties of the store and of the sweep *)

Section store_more.
Import cache reaper.
Implicit Types (c : Cache) (e : entry) (w : World) (tr : list event).
Implicit Types (now : Time) (key : string) (v : bytes).

Lemma Cache_eq c c' :
  (∀ key, entries c !! key = entries c' !! key) → ttl c = ttl c' → c = c'.
Proof.
  destruct c as [m d], c' as [m' d']; simpl. intros Hm ->.
  f_equal. by apply map_eq.
Qed.

(** X1 (sweeps compose): a sweep followed by a later sweep leaves the store
    as the later sweep alone does; in particular sweeping twice at the same
    reading of the clock is sweeping once. *)
Theorem sweep_sweep (t1 t2 : Time) c :
  t1 <= t2 → sweep t2 (sweep t1 c) = sweep t2 c.
Proof.
  intros Hle. apply Cache_eq; [|done]. intros key.
  rewrite !sweep_lookup, sweep_ttl.
  destruct (entries c !! key) as [e|]; [|done].
  destruct (expired t1 (ttl c) e) eqn:H1; [|done].
  destruct (expired t2 (ttl c) e) eqn:H2; [done|].
  apply expired_true in H1. apply expired_false in H2. lia.
Qed.

(** X2 (a sweep and an [Add] at the same instant): when the ttl is not
    negative, a sweep and an [Add] that read the same time give the same
    store in either order: the fresh entry, of age 0, is kept. *)
Theorem sweep_Add_same_instant now key v c :
  0 <= ttl c →
  sweep now (Add now key v c) = Add now key v (sweep now c).
Proof.
  intros Httl. apply Cache_eq; [|done]. intros key'.
  rewrite sweep_lookup. destruct (decide (key = key')) as [<-|Hne].
  - rewrite !Add_lookup.
    destruct (expired now _ _) eqn:Hexp; [|done].
    apply expired_true in Hexp. simpl in Hexp.
    change (ttl (Add now key v c)) with (ttl c) in Hexp. lia.
  - rewrite !Add_lookup_ne by done. by rewrite sweep_lookup.
Qed.

Lemma step_clock_mono w ev w' : step w ev = Some w' → clock w <= clock w'.
Proof.
  destruct ev; cbn; try case_bool_decide; intros [= <-]; cbn; lia.
Qed.

Lemma run_clock_mono tr w w' : run w tr = Some w' → clock w <= clock w'.
Proof.
  revert w. induction tr as [|ev tr IH]; simpl; intros w Hrun.
  - simplify_eq. lia.
  - destruct (step w ev) as [w1|] eqn:Hstep; [|done].
    pose proof (step_clock_mono _ _ _ Hstep). specialize (IH _ Hrun). lia.
Qed.

Lemma run_provenance tr w0 w key e :
  run w0 tr = Some w → entries (store w) !! key = Some e →
  entries (store w0) !! key = Some e ∨
  (In (CallAdd key (data e)) tr ∧ clock w0 <= createdAt e <= clock w).
Proof.
  revert w0. induction tr as [|ev tr IH]; simpl; intros w0 Hrun Hin.
  - simplify_eq. by left.
  - destruct (step w0 ev) as [w1|] eqn:Hstep; [|done].
    pose proof (step_clock_mono _ _ _ Hstep) as Hmono.
    pose proof (run_clock_mono _ _ _ Hrun) as Hmono'.
    destruct (IH w1 Hrun Hin) as [Hin1|[Hadded Htime]].
    2: { right. split; [by right|lia]. }
    destruct ev; cbn in Hstep; try case_bool_decide; simplify_eq;
      cbn in Hin1; rewrite ?snd_Get in Hin1.
    + by left.
    + left. rewrite sweep_lookup in Hin1.
      destruct (entries (store w0) !! key) as [e0|]; [|done].
      by destruct (expired _ _ e0).
    + destruct (decide (key0 = key)) as [->|Hne].
      * rewrite Add_lookup in Hin1. simplify_eq. right. cbn in *.
        split; [by left|lia].
      * rewrite Add_lookup_ne in Hin1 by done. by left.
    + by left.
Qed.

(** X3 (nothing is invented): in every run from a new store, an entry the
    store holds under a key was put there by an [Add] of that key with
    that payload, and its time stamp lies between the creation of the
    store and the present. *)
Theorem store_holds_only_what_was_added
    (s : Time) (d : Duration) tr w key e :
  run (start s d) tr = Some w →
  entries (store w) !! key = Some e →
  In (CallAdd key (data e)) tr ∧ s <= createdAt e <= clock w.
Proof.
  intros Hrun Hin.
  destruct (run_provenance _ _ _ _ _ Hrun Hin) as [Hinit|Hadded]; [|done].
  cbn in Hinit. by rewrite lookup_empty in Hinit.
Qed.

Lemma step_young w ev w' :
  well_formed w →
  (∀ key e, entries (store w) !! key = Some e →
            next_tick w <= createdAt e + 2 * ttl (store w)) →
  step w ev = Some w' →
  (∀ key e, entries (store w') !! key = Some e →
            next_tick w' <= createdAt e + 2 * ttl (store w')).
Proof.
  intros (Hpos & Hlo & Hhi) Hyoung Hstep key e. rewrite (step_ttl _ _ _ Hstep).
  destruct ev; cbn in Hstep; try case_bool_decide; simplify_eq; cbn;
    rewrite ?snd_Get; try apply Hyoung.
  - rewrite sweep_lookup. intros Hin.
    destruct (entries (store w) !! key) as [e0|]; [|done].
    destruct (expired _ _ e0) eqn:Hexp; simplify_eq.
    apply expired_false in Hexp. lia.
  - destruct (decide (key0 = key)) as [->|Hne].
    + rewrite Add_lookup. intros [= <-]. simpl. lia.
    + rewrite Add_lookup_ne by done. apply Hyoung.
Qed.

(** X4 (bound on what the store keeps): in every run of a store with ttl
    [d > 0] whose sweeps fire every [d], no entry the store holds is older
    than [2 d], whatever was added and however often. *)
Theorem no_entry_older_than_twice_the_ttl
    (s : Time) (d : Duration) tr w key e :
  0 < d →
  run (start s d) tr = Some w →
  entries (store w) !! key = Some e →
  clock w - createdAt e <= 2 * d.
Proof.
  intros Hd Hrun Hin.
  pose proof (run_well_formed _ _ _ (start_well_formed s d Hd) Hrun)
    as (_ & Hlo & _).
  pose proof (run_ttl _ _ _ Hrun) as Httl. simpl in Httl.
  assert (∀ key e, entries (store w) !! key = Some e →
            next_tick w <= createdAt e + 2 * ttl (store w)) as Hyoung.
  { clear Hin key e Hlo Httl.
    pose proof (start_well_formed s d Hd) as Hwf.
    assert (∀ key e, entries (store (start s d)) !! key = Some e →
              next_tick (start s d)
                <= createdAt e + 2 * ttl (store (start s d))) as Hinit.
    { intros key e Hin. cbn in Hin. by rewrite lookup_empty in Hin. }
    revert Hrun Hwf Hinit. generalize (start s d).
    induction tr as [|ev tr IH]; simpl; intros w0 Hrun Hwf Hinit.
    - by simplify_eq.
    - destruct (step w0 ev) as [w1|] eqn:Hstep; [|done].
      apply (IH w1 Hrun); eauto using step_well_formed, step_young. }
  specialize (Hyoung key e Hin). rewrite Httl in Hyoung. lia.
Qed.

(** X5 (the staleness window is reached): with the ideal ticker of this
    model, whose sweeps fire exactly every [d] and read the clock at the
    instant of the tick, the bound of twice the ttl is attained.  From
    every state a run of a store with ttl [d > 0] reaches, an entry added
    [dl] after the next tick, where [0 < dl <= d], survives the tick that
    follows and is still returned when the clock reads two periods after
    that next tick: its age is then [2 d - dl], up to [d - 1] beyond the
    ttl. *)
Theorem staleness_window_is_reached
    (s : Time) (d : Duration) pre w0 (dl : Duration) key v :
  0 < d → 0 < dl <= d →
  run (start s d) pre = Some w0 →
  ∃ w,
    run w0
      [Wait (next_tick w0 - clock w0); Tick; Wait dl; CallAdd key v;
       Wait (d - dl); Tick; Wait d] = Some w ∧
    clock w = next_tick w0 + 2 * d ∧
    entries (store w) !! key = Some (mkEntry (next_tick w0 + dl) v) ∧
    clock w - (next_tick w0 + dl) = 2 * d - dl ∧
    fst (Get key (store w)) = (v, true).
Proof.
  intros Hd Hdl Hpre.
  pose proof (run_well_formed _ _ _ (start_well_formed s d Hd) Hpre)
    as (_ & Hlo & _).
  pose proof (run_ttl _ _ _ Hpre) as Httl. cbn in Httl.
  set (t1 := clock w0 + (next_tick w0 - clock w0)).
  set (c1 := sweep t1 (store w0)).
  set (c2 := Add (t1 + dl) key v c1).
  set (t3 := t1 + dl + (d - dl)).
  set (c3 := sweep t3 c2).
  assert (ttl c1 = d ∧ ttl c2 = d ∧ ttl c3 = d) as (Hc1 & Hc2 & Hc3) by done.
  assert (entries c3 !! key = Some (mkEntry (next_tick w0 + dl) v)) as Hin.
  { unfold c3. rewrite sweep_lookup. unfold c2 at 1. rewrite Add_lookup.
    destruct (expired _ _ _) eqn:Hexp.
    - apply expired_true in Hexp. cbn in Hexp. rewrite Hc2 in Hexp.
      unfold t3 in Hexp. lia.
    - do 2 f_equal. unfold t1. lia. }
  exists {| store := c3; clock := t3 + d; next_tick := next_tick w0 + d + d |}.
  split_and!.
  - cbn [run step].
    rewrite bool_decide_true by lia. cbn [run step clock next_tick store].
    rewrite bool_decide_true by lia. cbn [run step clock next_tick store].
    rewrite Httl.
    rewrite bool_decide_true by lia. cbn [run step clock next_tick store].
    rewrite bool_decide_true by lia. cbn [run step clock next_tick store].
    fold t1 c1 c2 t3.
    rewrite bool_decide_true by (unfold t3, t1; lia).
    cbn [run step clock next_tick store]. fold c3. rewrite Hc2.
    rewrite bool_decide_true by (unfold t3, t1; lia).
    reflexivity.
  - cbn. unfold t3, t1. lia.
  - done.
  - cbn. unfold t3, t1. lia.
  - cbn [store]. by rewrite (Get_hit _ _ _ Hin).
Qed.

End store_more.

(** * Further properties of the fetch layer *)

Section fetch_more.
Import cache pokeapi.
Implicit Types (c : Client) (io : IO) (url name : string) (now : Time).
Implicit Types (net : string → reply).

Lemma fetch_Ok_cached net now url c io data c1 io1 :
  fetchWithCache net now url c io = (Ok data, c1, io1) →
  baseURL c1 = baseURL c ∧
  ∃ e, entries (cache c1) !! url = Some e ∧ data = cache.data e.
Proof.
  destruct (entries (cache c) !! url) as [e|] eqn:Hlook.
  - rewrite (fetch_hit _ _ _ _ _ _ Hlook). intros [= <- <- <-].
    split; [done|]. by exists e.
  - rewrite (fetch_miss _ _ _ _ _ Hlook).
    destruct (net url) as [cause|resp]; [done|].
    case_bool_decide; [done|].
    destruct (Body resp) as [body|cause]; [|done].
    intros [= <- <- <-]. split; [done|].
    exists (mkEntry now body). split; [|done]. cbn. apply Add_lookup.
Qed.

Lemma fetch_Err_unchanged net now url c io e c1 io1 :
  fetchWithCache net now url c io = (Err e, c1, io1) →
  c1 = c ∧ io1 = request url io ∧ entries (cache c) !! url = None.
Proof.
  destruct (entries (cache c) !! url) as [e0|] eqn:Hlook.
  - by rewrite (fetch_hit _ _ _ _ _ _ Hlook).
  - rewrite (fetch_miss _ _ _ _ _ Hlook).
    destruct (net url) as [cause|resp]; [by intros [= <- <- <-]|].
    case_bool_decide; [by intros [= <- <- <-]|].
    destruct (Body resp) as [body|cause]; [done|]. by intros [= <- <- <-].
Qed.

(** X6 (a fetched URL is served from the cache): once [fetchWithCache] has
    returned a payload for a URL, the next call for that URL on the same
    client returns the same payload, sends no request and leaves the
    client as it is, whatever the remote side would answer now and
    whatever the time. *)
Theorem second_fetch_is_a_cache_hit
    net1 net2 (now1 now2 : Time) url c io data c1 io1 :
  fetchWithCache net1 now1 url c io = (Ok data, c1, io1) →
  fetchWithCache net2 now2 url c1 io1 =
    (Ok data, c1, Println "(using cached data)" io1) ∧
  requests (Println "(using cached data)" io1) = requests io1.
Proof.
  intros Hfirst. split; [|done].
  apply fetch_Ok_cached in Hfirst as (_ & e & Hin & ->).
  by apply fetch_hit.
Qed.


(** X8 (a body that does not parse is cached all the same): [GetPokemon]
    stores the body of a successful response before decoding it.  When
    the decoder rejects the body, [GetPokemon] returns the parse error
    and the body is in the cache under the URL of the name.  From then
    on, in every state of the client in which the cache still holds that
    body under that URL (the state just reached, and every state after
    other fetches, until a sweep deletes the entry), [GetPokemon] of that
    name fails with the same parse error without calling [http.Get],
    whatever the remote side would answer. *)
Theorem unparseable_body_is_cached
    net (json : bytes → Pokemon + string) now name c io resp data cause :
  entries (cache c) !! pokemon_url c name = None →
  net (pokemon_url c name) = Replied resp →
  StatusCode resp = 200 → Body resp = inl data →
  json data = inr cause →
  ∃ c1,
    GetPokemon net json now name c io =
      (Err (FailedToParse cause), c1, request (pokemon_url c name) io) ∧
    baseURL c1 = baseURL c ∧
    entries (cache c1) !! pokemon_url c name = Some (mkEntry now data) ∧
    ∀ c2 e net2 (now2 : Time) io2,
      baseURL c2 = baseURL c →
      entries (cache c2) !! pokemon_url c name = Some e →
      cache.data e = data →
      GetPokemon net2 json now2 name c2 io2 =
        (Err (FailedToParse cause), c2, Println "(using cached data)" io2) ∧
      requests (Println "(using cached data)" io2) = requests io2.
Proof.
  intros Hout Hnet Hstatus Hbody Hjson.
  exists (set_cache c (Add now (pokemon_url c name) data (cache c))).
  split_and!.
  - unfold GetPokemon. fold (pokemon_url c name).
    rewrite (fetch_miss _ _ _ _ _ Hout), Hnet.
    rewrite bool_decide_false by (unfold StatusOK; lia).
    by rewrite Hbody, Hjson.
  - done.
  - cbn. apply Add_lookup.
  - intros c2 e net2 now2 io2 Hbase Hin Hdata. split; [|done].
    unfold GetPokemon. rewrite Hbase. fold (pokemon_url c name).
    rewrite (fetch_hit _ _ _ _ _ _ Hin). cbn. by rewrite Hdata, Hjson.
Qed.

Lemma append_inj_r (x y : string) (a : Ascii.ascii) :
  (x ++ String a "" = y ++ String a "")%string → x = y.
Proof.
  revert y. induction x as [|b x IH]; intros [|b' y]; cbn; intros Heq.
  - done.
  - injection Heq as -> Heq. by destruct y.
  - injection Heq as -> Heq. by destruct x.
  - injection Heq as -> Heq. f_equal. by apply IH.
Qed.

(** X9 (the cache keys of the client's endpoints do not collide): the URL
    of a Pokemon determines its name, the URL of a location area
    determines its name, and the URLs of a Pokemon, of a location area
    and of the first page of location areas are different from one
    another. *)
Theorem endpoint_urls_do_not_collide c name name' :
  (pokemon_url c name = pokemon_url c name' → name = name') ∧
  (location_area_url c name = location_area_url c name' → name = name') ∧
  pokemon_url c name ≠ location_area_url c name' ∧
  pokemon_url c name ≠ GetFirstLocationAreasURL c ∧
  location_area_url c name ≠ GetFirstLocationAreasURL c.
Proof.
  unfold pokemon_url, location_area_url, GetFirstLocationAreasURL.
  split_and!.
  - intros Heq. apply String.app_inj in Heq. apply String.app_inj in Heq.
    by apply append_inj_r in Heq.
  - intros Heq. apply String.app_inj in Heq. apply String.app_inj in Heq.
    by apply append_inj_r in Heq.
  - intros Heq. apply String.app_inj in Heq. discriminate.
  - intros Heq. apply String.app_inj in Heq. discriminate.
  - intros Heq. apply String.app_inj in Heq.
    apply (String.app_inj "/location-area/" _ "") in Heq. by destruct name.
Qed.

End fetch_more.

(** * Properties of the paging commands *)

Section paging_facts.
Import cache pokeapi main.
Variable json_Unmarshal_areas : bytes → LocationAreasResponse + string.
Implicit Types (c : Client) (io : IO) (url : string) (now : Time).
Implicit Types (net : string → reply) (cfg : config) (args : list string).

Lemma fetch_keeps_entries net now url c io r c1 io1 key e :
  fetchWithCache net now url c io = (r, c1, io1) →
  entries (cache c) !! key = Some e →
  entries (cache c1) !! key = Some e.
Proof.
  intros Hfetch Hin.
  destruct (entries (cache c) !! url) as [e0|] eqn:Hlook.
  - rewrite (fetch_hit _ _ _ _ _ _ Hlook) in Hfetch. by simplify_eq.
  - assert (url ≠ key) as Hne by congruence.
    rewrite (fetch_miss _ _ _ _ _ Hlook) in Hfetch.
    destruct (net url) as [cause|resp]; [by simplify_eq|].
    case_bool_decide; [by simplify_eq|].
    destruct (Body resp) as [body|cause]; [|by simplify_eq].
    simplify_eq. cbn. by rewrite Add_lookup_ne.
Qed.

(** X10 (the fetch layer never overwrites): an entry of the cache is still
    there, with its payload and its time stamp, after any call of
    [fetchWithCache], for the same URL or for another: the fetch layer
    adds entries and never replaces or removes one. *)
Theorem fetchWithCache_keeps_cached_entries net now url c io key e :
  entries (cache c) !! key = Some e →
  entries (cache (snd (fst (fetchWithCache net now url c io)))) !! key
    = Some e.
Proof.
  intros Hin.
  destruct (fetchWithCache net now url c io) as [[r c1] io1] eqn:Hfetch.
  by apply (fetch_keeps_entries _ _ _ _ _ _ _ _ _ _ Hfetch).
Qed.

(** What a successful [GetLocationAreas] tells: the URL is cached with a
    body that decodes to the response. *)
Lemma GetLocationAreas_inl net now url c io resp c1 io1 :
  GetLocationAreas net json_Unmarshal_areas now url c io = (inl resp, c1, io1) →
  ∃ e, entries (cache c1) !! url = Some e ∧
       json_Unmarshal_areas (data e) = inl resp.
Proof.
  unfold GetLocationAreas.
  destruct (fetchWithCache net now url c io) as [[[body|err] c'] io'] eqn:Hf;
    [|done].
  destruct (json_Unmarshal_areas body) as [resp'|cause] eqn:Hjson; [|done].
  intros [= <- <- <-].
  apply fetch_Ok_cached in Hf as (_ & e & Hin & ->). by exists e.
Qed.

Lemma GetLocationAreas_keeps net now url c io r c1 io1 key e :
  GetLocationAreas net json_Unmarshal_areas now url c io = (r, c1, io1) →
  entries (cache c) !! key = Some e →
  entries (cache c1) !! key = Some e.
Proof.
  unfold GetLocationAreas.
  destruct (fetchWithCache net now url c io) as [[[body|err] c'] io'] eqn:Hf.
  - destruct (json_Unmarshal_areas body); intros [= <- <- <-];
      by apply (fetch_keeps_entries _ _ _ _ _ _ _ _ _ _ Hf).
  - intros [= <- <- <-]. by apply (fetch_keeps_entries _ _ _ _ _ _ _ _ _ _ Hf).
Qed.

Lemma GetLocationAreas_hit net now url c io e resp :
  entries (cache c) !! url = Some e →
  json_Unmarshal_areas (data e) = inl resp →
  GetLocationAreas net json_Unmarshal_areas now url c io =
    (inl resp, c, Println "(using cached data)" io).
Proof.
  intros Hin Hjson. unfold GetLocationAreas.
  by rewrite (fetch_hit _ _ _ _ _ _ Hin), Hjson.
Qed.

(** X11 (a failed page leaves the position): when [commandMap] or
    [commandMapb] returns an error, the next and previous URLs and the
    pokedex are as before, so the same page can be asked for again; when
    the error comes from the fetch (network, status, read), the whole
    configuration, the cache included, is as before. *)
Theorem failed_page_leaves_position net now cfg args io err cfg' io' :
  commandMap net json_Unmarshal_areas now cfg args io = (Some err, cfg', io') ∨
  commandMapb net json_Unmarshal_areas now cfg args io = (Some err, cfg', io') →
  nextURL cfg' = nextURL cfg ∧ prevURL cfg' = prevURL cfg ∧
  pokedex cfg' = pokedex cfg ∧
  (∀ e, err = Fetch e → cfg' = cfg).
Proof.
  assert (∀ url,
    match GetLocationAreas net json_Unmarshal_areas now url (client cfg) io with
    | (inr err0, c, io0) => (Some err0, set_client cfg c, io0)
    | (inl resp, c, io0) =>
        (None,
         {| client := c; nextURL := Next resp; prevURL := Previous resp;
            pokedex := pokedex cfg |},
         print_each NamedResource_Name (Results resp) io0)
    end = (Some err, cfg', io') →
    nextURL cfg' = nextURL cfg ∧ prevURL cfg' = prevURL cfg ∧
    pokedex cfg' = pokedex cfg ∧ (∀ e, err = Fetch e → cfg' = cfg)) as Hpage.
  { intros url. unfold GetLocationAreas.
    destruct (fetchWithCache net now url (client cfg) io)
      as [[[body|e] c'] io1] eqn:Hf.
    - destruct (json_Unmarshal_areas body) as [resp|cause] eqn:Hjson; [done|].
      by intros [= <- <- <-].
    - apply fetch_Err_unchanged in Hf as (-> & _ & _).
      intros [= <- <- <-]. split_and!; [done..|]. intros _ _. by destruct cfg. }
  intros [H|H]; [unfold commandMap in H|unfold commandMapb in H].
  - destruct (nextURL cfg); [by eapply Hpage|done].
  - destruct (prevURL cfg); [by eapply Hpage|done].
Qed.

Lemma print_each_requests {A} (line : A → string) (xs : list A) io :
  requests (print_each line xs io) = requests io.
Proof.
  unfold print_each. revert io. induction xs as [|x xs IH]; intros io; [done|].
  cbn. by rewrite IH.
Qed.

Lemma print_each_stdout {A} (line : A → string) (xs : list A) io :
  stdout (print_each line xs io) = stdout io ++ map line xs.
Proof.
  unfold print_each. revert io. induction xs as [|x xs IH]; intros io; cbn.
  - by rewrite app_nil_r.
  - rewrite IH. cbn. by rewrite <- app_assoc.
Qed.

(** What a successful [commandMap] tells. *)
Lemma commandMap_None net now cfg args io cfg1 io1 url :
  nextURL cfg = Some url →
  commandMap net json_Unmarshal_areas now cfg args io = (None, cfg1, io1) →
  ∃ resp io0,
    GetLocationAreas net json_Unmarshal_areas now url (client cfg) io
      = (inl resp, client cfg1, io0) ∧
    nextURL cfg1 = Next resp ∧ prevURL cfg1 = Previous resp ∧
    pokedex cfg1 = pokedex cfg ∧
    io1 = print_each NamedResource_Name (Results resp) io0.
Proof.
  intros Hnext. unfold commandMap. rewrite Hnext.
  destruct (GetLocationAreas _ _ _ _ _ _) as [[[resp|err] c] io0]; [|done].
  intros [= <- <-]. by exists resp, io0.
Qed.

(** X12 (map, map, mapb): after two successful [commandMap] calls, if the
    second page names the first page as its predecessor, [commandMapb]
    succeeds from the cache: it sends no request, leaves the client as it
    is, and puts the next and previous URLs back to what they were after
    the first [commandMap], whatever the remote side would answer now. *)
Theorem map_map_mapb_returns_to_first_page
    net1 net2 net3 (now1 now2 now3 : Time) cfg (a1 a2 a3 : list string)
    io cfg1 io1 cfg2 io2 (u1 u2 : string) :
  nextURL cfg = Some u1 →
  commandMap net1 json_Unmarshal_areas now1 cfg a1 io = (None, cfg1, io1) →
  nextURL cfg1 = Some u2 →
  commandMap net2 json_Unmarshal_areas now2 cfg1 a2 io1 = (None, cfg2, io2) →
  prevURL cfg2 = Some u1 →
  ∃ cfg3 io3,
    commandMapb net3 json_Unmarshal_areas now3 cfg2 a3 io2
      = (None, cfg3, io3) ∧
    nextURL cfg3 = nextURL cfg1 ∧ prevURL cfg3 = prevURL cfg1 ∧
    pokedex cfg3 = pokedex cfg ∧
    client cfg3 = client cfg2 ∧ requests io3 = requests io2.
Proof.
  intros Hnext Hmap1 Hnext1 Hmap2 Hprev2.
  apply (commandMap_None _ _ _ _ _ _ _ u1 Hnext) in Hmap1
    as (resp1 & io0 & Hget1 & Hn1 & Hp1 & Hdex1 & _).
  apply (commandMap_None _ _ _ _ _ _ _ u2 Hnext1) in Hmap2
    as (resp2 & io0' & Hget2 & _ & _ & Hdex2 & _).
  apply GetLocationAreas_inl in Hget1 as (e1 & Hin1 & Hjson1).
  pose proof (GetLocationAreas_keeps _ _ _ _ _ _ _ _ _ _ Hget2 Hin1) as Hin2.
  unfold commandMapb. rewrite Hprev2.
  rewrite (GetLocationAreas_hit _ _ _ _ _ _ _ Hin2 Hjson1).
  eexists _, _. split; [reflexivity|]. cbn.
  rewrite print_each_requests. cbn.
  split_and!; [done|done|congruence|done|done].
Qed.

End paging_facts.

(** * Further properties of the commands *)

Section commands_facts.
Import cache pokeapi main.
Variable any : Type.
Variable json_Unmarshal : bytes → Pokemon + string.
Variable json_Unmarshal_areas : bytes → LocationAreasResponse + string.
Variable json_Unmarshal_area : bytes → LocationAreaResponse any + string.
Implicit Types (c : Client) (io : IO) (url name : string) (now : Time).
Implicit Types (net : string → reply) (cfg : config) (args : list string).

Lemma fetch_requests net now url c io r c1 io1 :
  fetchWithCache net now url c io = (r, c1, io1) →
  requests io1 = requests io ∨ requests io1 = requests io ++ [url].
Proof.
  destruct (entries (cache c) !! url) as [e|] eqn:Hlook.
  - rewrite (fetch_hit _ _ _ _ _ _ Hlook). intros [= <- <- <-]. by left.
  - rewrite (fetch_miss _ _ _ _ _ Hlook). intros Hfetch. right.
    destruct (net url) as [cause|resp]; [by simplify_eq|].
    case_bool_decide; [by simplify_eq|].
    destruct (Body resp) as [body|cause]; by simplify_eq.
Qed.

Lemma fetch_baseURL net now url c io r c1 io1 :
  fetchWithCache net now url c io = (r, c1, io1) → baseURL c1 = baseURL c.
Proof.
  destruct (entries (cache c) !! url) as [e|] eqn:Hlook.
  - rewrite (fetch_hit _ _ _ _ _ _ Hlook). by intros [= <- <- <-].
  - rewrite (fetch_miss _ _ _ _ _ Hlook). intros Hfetch.
    destruct (net url) as [cause|resp]; [by simplify_eq|].
    case_bool_decide; [by simplify_eq|].
    destruct (Body resp) as [body|cause]; by simplify_eq.
Qed.

(** X13 (one call of [http.Get], with the URL of the name given):
    [commandCatch] and [commandExplore] call [http.Get] at most once each;
    the call is made with the URL of the Pokemon, respectively of the
    location area, named by the first argument, and without an argument
    [http.Get] is not called. *)
Theorem commands_request_only_the_named_url net now roll cfg args io :
  (requests (snd (commandCatch net json_Unmarshal now roll cfg args io))
     = requests io ∨
   ∃ name rest, args = name :: rest ∧
     requests (snd (commandCatch net json_Unmarshal now roll cfg args io))
       = requests io ++ [pokemon_url (client cfg) name]) ∧
  (requests (snd (commandExplore any net json_Unmarshal_area now cfg args io))
     = requests io ∨
   ∃ name rest, args = name :: rest ∧
     requests (snd (commandExplore any net json_Unmarshal_area now cfg args io))
       = requests io ++ [location_area_url (client cfg) name]).
Proof.
  split.
  - unfold commandCatch. destruct args as [|name rest]; [by left|].
    unfold GetPokemon. fold (pokemon_url (client cfg) name).
    destruct (fetchWithCache _ _ _ _ _) as [[[body|e] c1] io1] eqn:Hf;
      apply fetch_requests in Hf; cbn in Hf.
    + destruct (json_Unmarshal body) as [p|cause]; [case_bool_decide|]; cbn;
        (destruct Hf as [Hf|Hf]; [by left|right; by exists name, rest]).
    + cbn. destruct Hf as [Hf|Hf]; [by left|right; by exists name, rest].
  - unfold commandExplore. destruct args as [|name rest]; [by left|].
    unfold GetLocationArea.
    destruct (fetchWithCache _ _ _ _ _) as [[[body|e] c1] io1] eqn:Hf;
      apply fetch_requests in Hf.
    + destruct (json_Unmarshal_area body) as [resp|cause]; cbn -[print_each].
      * destruct (PokemonEncounters resp); cbn -[print_each];
          rewrite ?print_each_requests; cbn;
          (destruct Hf as [Hf|Hf]; [by left|right; by exists name, rest]).
      * destruct Hf as [Hf|Hf]; [by left|right; by exists name, rest].
    + cbn. destruct Hf as [Hf|Hf]; [by left|right; by exists name, rest].
Qed.

(** X14 (frame of the commands): [commandCatch] and [commandExplore]
    leave the next and previous URLs as they are, [commandMap],
    [commandMapb] and [commandExplore] leave the pokedex as it is,
    [commandPokedex] leaves the whole configuration as it is, and none of
    them changes the base URL of the client. *)
Theorem commands_frame net now roll (order : list string) cfg args io :
  let catch := snd (fst (commandCatch net json_Unmarshal now roll cfg args io)) in
  let explore :=
    snd (fst (commandExplore any net json_Unmarshal_area now cfg args io)) in
  let map := snd (fst (commandMap net json_Unmarshal_areas now cfg args io)) in
  let mapb := snd (fst (commandMapb net json_Unmarshal_areas now cfg args io)) in
  (nextURL catch = nextURL cfg ∧ prevURL catch = prevURL cfg ∧
   baseURL (client catch) = baseURL (client cfg)) ∧
  (nextURL explore = nextURL cfg ∧ prevURL explore = prevURL cfg ∧
   pokedex explore = pokedex cfg ∧
   baseURL (client explore) = baseURL (client cfg)) ∧
  (pokedex map = pokedex cfg ∧ baseURL (client map) = baseURL (client cfg)) ∧
  (pokedex mapb = pokedex cfg ∧ baseURL (client mapb) = baseURL (client cfg)) ∧
  snd (fst (commandPokedex order cfg args io)) = cfg.
Proof.
  cbv zeta. split; [|split; [|split; [|split]]].
  - unfold commandCatch. destruct args as [|name rest]; [done|].
    unfold GetPokemon. cbv zeta.
    destruct (fetchWithCache _ _ _ _ _) as [[[body|e] c1] io1] eqn:Hf;
      apply fetch_baseURL in Hf; [|done].
    destruct (json_Unmarshal body) as [p|cause]; [case_bool_decide|]; done.
  - unfold commandExplore. destruct args as [|name rest]; [done|].
    unfold GetLocationArea. cbv zeta.
    destruct (fetchWithCache _ _ _ _ _) as [[[body|e] c1] io1] eqn:Hf;
      apply fetch_baseURL in Hf; [|done].
    by destruct (json_Unmarshal_area body) as [resp|cause].
  - unfold commandMap. destruct (nextURL cfg) as [url|]; [|done].
    unfold GetLocationAreas.
    destruct (fetchWithCache _ _ _ _ _) as [[[body|e] c1] io1] eqn:Hf;
      apply fetch_baseURL in Hf; [|done].
    by destruct (json_Unmarshal_areas body) as [resp|cause].
  - unfold commandMapb. destruct (prevURL cfg) as [url|]; [|done].
    unfold GetLocationAreas.
    destruct (fetchWithCache _ _ _ _ _) as [[[body|e] c1] io1] eqn:Hf;
      apply fetch_baseURL in Hf; [|done].
    by destruct (json_Unmarshal_areas body) as [resp|cause].
  - unfold commandPokedex. by case_bool_decide.
Qed.

(** X15 (only catchable Pokemon in the pokedex): if every Pokemon of the
    pokedex has a base experience below 400, then so has every Pokemon of
    the pokedex after [commandCatch], whatever the arguments, the remote
    side and the roll of [rand.Intn(400)]. *)
Theorem pokedex_holds_only_catchable net now roll cfg args io :
  Intn_returns maxBaseExp roll →
  (∀ k q, pokedex cfg !! k = Some q → BaseExperience q < 400) →
  ∀ k q,
    pokedex (snd (fst (commandCatch net json_Unmarshal now roll cfg args io)))
      !! k = Some q →
    BaseExperience q < 400.
Proof.
  intros [Hlo Hhi] Hinv k q. unfold maxBaseExp in Hhi.
  unfold commandCatch. destruct args as [|name rest]; [apply Hinv|].
  destruct (GetPokemon _ _ _ _ _ _) as [[[p|e] c1] io1]; [|apply Hinv].
  unfold maxBaseExp. case_bool_decide as Hroll; cbn; [|apply Hinv].
  destruct (decide (name = k)) as [->|Hne].
  - rewrite lookup_insert_eq. intros [= <-]. lia.
  - rewrite lookup_insert_ne by done. apply Hinv.
Qed.

Lemma count_at_least (P : Z → Prop) `{!∀ r, Decision (P r)} (T : Z) (k : nat) :
  0 <= T →
  (∀ r, 0 <= r → P r ↔ T <= r) →
  length (filter P (seqZ 0 (Z.of_nat k))) = Z.to_nat (Z.of_nat k - T).
Proof.
  intros HT HP. induction k as [|k IH].
  { rewrite seqZ_nil by done. rewrite filter_nil. cbn. lia. }
  rewrite seqZ_S, filter_app, length_app, IH.
  rewrite filter_cons, filter_nil. rewrite Z.add_0_l.
  destruct (decide (P (Z.of_nat k))) as [Hyes|Hno]; cbn [length].
  - apply HP in Hyes; lia.
  - assert (¬ T <= Z.of_nat k) by (intros ?; apply Hno, HP; lia). lia.
Qed.

(** X16 (the chance of a catch): for a Pokemon that is fetched and not
    yet in the pokedex, the rolls of [rand.Intn(400)] after which
    [commandCatch] has put it in the pokedex number [400 - b], where [b] is
    the base experience brought into the range from 0 to 400: all 400
    rolls for a base experience of 0 or less, none for 400 or more. *)
Theorem catching_rolls_count net now cfg name rest io p c1 io1 :
  GetPokemon net json_Unmarshal now name (client cfg)
    (Println ("Throwing a Pokeball at " ++ name ++ "...") io)
    = (Ok p, c1, io1) →
  pokedex cfg !! name = None →
  length
    (filter
       (λ roll,
          is_Some
            (pokedex
               (snd (fst (commandCatch net json_Unmarshal now roll cfg
                            (name :: rest) io))) !! name))
       (seqZ 0 400))
  = Z.to_nat (400 - Z.max 0 (Z.min (BaseExperience p) 400)).
Proof.
  intros Hfetch Hfresh.
  apply (count_at_least _ (Z.max 0 (Z.min (BaseExperience p) 400)) 400);
    [lia|].
  intros roll Hroll. unfold commandCatch. rewrite Hfetch. unfold maxBaseExp.
  case_bool_decide as Hcmp; cbn.
  - rewrite lookup_insert_eq. split; [lia|by eexists].
  - rewrite Hfresh. split; [by intros [? ?]|lia].
Qed.

(** X17 (what [commandPokedex] lists): with an empty pokedex it prints the
    one line that says so; otherwise it prints the heading and then one
    line per caught Pokemon: as many lines as the pokedex has entries, no
    line twice, and the line of a name is there exactly when the name is
    in the pokedex.  [order] is the order in which the loop visits the
    keys. *)
Theorem commandPokedex_lists_the_caught (order : list string) cfg args io :
  order ≡ₚ (map_to_list (pokedex cfg)).*1 →
  (pokedex cfg = ∅ →
     stdout (snd (commandPokedex order cfg args io)) =
       stdout io ++ ["Your Pokedex is empty. Try catching some Pokemon!"]) ∧
  (pokedex cfg ≠ ∅ →
     ∃ lines,
       stdout (snd (commandPokedex order cfg args io)) =
         stdout io ++ "Your Pokedex:" :: lines ∧
       length lines = size (pokedex cfg) ∧
       NoDup lines ∧
       ∀ name,
         ("  - " ++ name)%string ∈ lines ↔ is_Some (pokedex cfg !! name)).
Proof.
  intros Horder. unfold commandPokedex. split.
  - intros Hempty. rewrite bool_decide_true; [done|].
    by apply map_size_empty_iff.
  - intros Hnonempty. rewrite bool_decide_false by by rewrite map_size_empty_iff.
    exists (map (λ name, "  - " ++ name)%string order). cbn -[print_each].
    rewrite print_each_stdout. cbn. rewrite <- app_assoc. split_and!.
    + done.
    + rewrite length_map, Horder, length_fmap. apply length_map_to_list.
    + apply (NoDup_fmap_2 _). rewrite Horder. apply NoDup_fst_map_to_list.
    + intros name. change (map ?f order) with (f <$> order).
      rewrite (list_elem_of_fmap_inj _), Horder.
      rewrite list_elem_of_fmap. split.
      * intros ([k q] & -> & Hin). apply elem_of_map_to_list in Hin.
        by exists q.
      * intros [q Hin]. exists (name, q). split; [done|].
        by apply elem_of_map_to_list.
Qed.

End commands_facts.

(** * Properties of [cleanInput] *)

Section cleanInput_facts.
Import main.
Implicit Types (s word text : string) (a : Ascii.ascii).

Lemma lower_not_upper a : isUpper (lower a) = false.
Proof. destruct a as [[|] [|] [|] [|] [|] [|] [|] [|]]; reflexivity. Qed.

Lemma lower_space a : isSpace (lower a) = isSpace a.
Proof. destruct a as [[|] [|] [|] [|] [|] [|] [|] [|]]; reflexivity. Qed.

Lemma lower_lower a : lower (lower a) = lower a.
Proof. destruct a as [[|] [|] [|] [|] [|] [|] [|] [|]]; reflexivity. Qed.

Lemma ToLower_ToLower s : ToLower (ToLower s) = ToLower s.
Proof. induction s as [|a s IH]; simpl; [done|]. by rewrite lower_lower, IH. Qed.

Lemma ToLower_app s1 s2 :
  ToLower (s1 ++ s2) = (ToLower s1 ++ ToLower s2)%string.
Proof. induction s1 as [|a s1 IH]; simpl; [done|]. by rewrite IH. Qed.

Lemma all_chars_app f s1 s2 :
  all_chars f (s1 ++ s2) = all_chars f s1 && all_chars f s2.
Proof.
  induction s1 as [|a s1 IH]; simpl; [done|]. by rewrite IH, andb_assoc.
Qed.

Lemma all_chars_ToLower_space s :
  all_chars (λ a, negb (isSpace a)) (ToLower s)
    = all_chars (λ a, negb (isSpace a)) s.
Proof. induction s as [|a s IH]; simpl; [done|]. by rewrite lower_space, IH. Qed.

Lemma all_chars_ToLower_upper s :
  all_chars (λ a, negb (isUpper a)) (ToLower s) = true.
Proof.
  induction s as [|a s IH]; simpl; [done|]. by rewrite lower_not_upper, IH.
Qed.

Lemma append_empty s1 s2 : (s1 ++ s2)%string = EmptyString → s1 = EmptyString.
Proof. by destruct s1. Qed.

(** The fields read from [s] when [word], free of white space, is being
    read: none is empty, none holds white space. *)
Lemma Fields_from_words s : ∀ word,
  all_chars (λ a, negb (isSpace a)) word = true →
  Forall (λ w, w ≠ EmptyString ∧ all_chars (λ a, negb (isSpace a)) w = true)
    (Fields_from word s).
Proof.
  induction s as [|a s IH]; intros word Hword; simpl.
  - destruct word; [constructor|]. by repeat constructor.
  - destruct (isSpace a) eqn:Ha.
    + destruct word; [by apply IH|]. constructor; [done|by apply IH].
    + apply IH. rewrite all_chars_app, Hword. simpl. by rewrite Ha.
Qed.

Lemma Fields_from_lower s : ∀ word,
  Fields_from (ToLower word) (ToLower s) = map ToLower (Fields_from word s).
Proof.
  induction s as [|a s IH]; intros word; simpl.
  - by destruct word.
  - rewrite lower_space. destruct (isSpace a).
    + destruct word; simpl; [apply (IH EmptyString)|].
      f_equal. apply (IH EmptyString).
    + rewrite <- IH. by rewrite ToLower_app.
Qed.

Lemma Fields_from_split s1 s2 a : ∀ word,
  isSpace a = true →
  Fields_from word (s1 ++ String a s2) = Fields_from word s1 ++ Fields s2.
Proof.
  induction s1 as [|b s1 IH]; intros word Ha; simpl.
  - rewrite Ha. by destruct word.
  - destruct (isSpace b).
    + destruct word; simpl; [by apply IH|]. f_equal. by apply IH.
    + by apply IH.
Qed.

Lemma Fields_from_empty s : ∀ word,
  Fields_from word s = [] ↔ word = EmptyString ∧ all_chars isSpace s = true.
Proof.
  induction s as [|a s IH]; intros word; simpl.
  - destruct word; split; (done || by intros [? ?]).
  - destruct (isSpace a); simpl.
    + destruct word; [apply IH|]. split; (done || by intros [? ?]).
    + rewrite IH. split; [|by intros [? ?]].
      intros [Hempty _]. by destruct word.
Qed.

Lemma append_nil_r word : (word ++ "")%string = word.
Proof.
  induction word as [|b w IH]; [done|].
  change (String b w ++ "")%string with (String b (w ++ "")). by rewrite IH.
Qed.

Lemma append_snoc word a s :
  ((word ++ String a "") ++ s)%string = (word ++ String a s)%string.
Proof.
  induction word as [|b w IH]; [done|].
  change (String b (((w ++ String a "") ++ s))%string
          = String b (w ++ String a s)%string).
  by rewrite IH.
Qed.

Lemma Fields_from_one_word s : ∀ word,
  all_chars (λ a, negb (isSpace a)) s = true →
  (word ++ s)%string ≠ EmptyString →
  Fields_from word s = [(word ++ s)%string].
Proof.
  induction s as [|a s IH]; intros word Hs Hne; simpl in *.
  - rewrite append_nil_r in *. by destruct word.
  - apply andb_true_iff in Hs as [Ha Hs]. apply negb_true_iff in Ha.
    rewrite Ha, IH; [|done|].
    + by rewrite append_snoc.
    + intros Hempty. apply append_empty in Hempty. by destruct word.
Qed.

Lemma cleanInput_Fields_ToLower text : cleanInput text = Fields (ToLower text).
Proof.
  unfold cleanInput, Fields. by rewrite <- Fields_from_lower.
Qed.

Lemma Fields_Join (ws : list string) :
  Forall (λ w, w ≠ EmptyString ∧ all_chars (λ a, negb (isSpace a)) w = true)
    ws →
  Fields (Join_space ws) = ws.
Proof.
  induction 1 as [|w ws [Hne Hw] Hws IH]; [done|].
  destruct ws as [|w' ws].
  - simpl. unfold Fields. rewrite Fields_from_one_word; done.
  - change (Join_space (w :: w' :: ws))
      with (w ++ String (Ascii.ascii_of_nat 32) (Join_space (w' :: ws)))%string.
    unfold Fields. rewrite Fields_from_split by done.
    rewrite Fields_from_one_word by done. simpl. f_equal. apply IH.
Qed.

Lemma cleanInput_words_are_clean' text : Forall clean_word (cleanInput text).
Proof.
  unfold cleanInput.
  pose proof (Fields_from_words text EmptyString eq_refl) as Hwords.
  fold (Fields text) in Hwords. induction Hwords as [|w ws [Hne Hw] _ IH].
  - constructor.
  - simpl. constructor; [|done]. split_and!.
    + by destruct w.
    + by rewrite all_chars_ToLower_space.
    + apply all_chars_ToLower_upper.
Qed.

(** X18 (the words of [cleanInput]): for ASCII text, every word that
    [cleanInput] returns is not empty, holds no white space and holds no
    upper-case letter. *)
Theorem cleanInput_words_are_clean text :
  ascii_text text = true → Forall clean_word (cleanInput text).
Proof.
  intros _. apply cleanInput_words_are_clean'.
Qed.

(** X19 (no words): for ASCII text, [cleanInput] returns no word exactly
    when the text holds white space only, the empty text included. *)
Theorem cleanInput_empty_iff text :
  ascii_text text = true →
  cleanInput text = [] ↔ all_chars isSpace text = true.
Proof.
  intros _. unfold cleanInput, Fields.
  pose proof (Fields_from_empty text EmptyString) as [Hnone Hall].
  split.
  - intros Hmap. apply Hnone. by destruct (Fields_from EmptyString text).
  - intros Hspace. by rewrite Hall.
Qed.

(** X20 (splitting at white space): for ASCII text, the words of a text
    with a white-space character in it are the words of the part before
    it followed by the words of the part after it. *)
Theorem cleanInput_split text1 text2 a :
  ascii_text (text1 ++ String a text2) = true →
  isSpace a = true →
  cleanInput (text1 ++ String a text2) = cleanInput text1 ++ cleanInput text2.
Proof.
  intros _ Ha. unfold cleanInput, Fields.
  rewrite Fields_from_split by done. apply map_app.
Qed.

(** X21 (case is ignored): for ASCII text, [cleanInput] gives the same
    words whether the text is put in lower case before or its fields
    after; two texts that differ in the case of letters only give the
    same words. *)
Theorem cleanInput_ignores_case text1 text2 :
  ascii_text text1 = true → ascii_text text2 = true →
  ToLower text1 = ToLower text2 →
  cleanInput text1 = cleanInput text2 ∧
  cleanInput (ToLower text1) = cleanInput text1.
Proof.
  intros _ _ Heq. rewrite !cleanInput_Fields_ToLower.
  by rewrite ToLower_ToLower, Heq.
Qed.

(** X22 (clean input is a fixed point): for ASCII text, joining the words
    of [cleanInput] with single spaces gives a text that [cleanInput]
    splits into the same words. *)
Theorem cleanInput_Join text :
  ascii_text text = true →
  cleanInput (Join_space (cleanInput text)) = cleanInput text.
Proof.
  intros Hascii.
  pose proof (cleanInput_words_are_clean' text) as Hclean.
  unfold cleanInput at 1. rewrite Fields_Join.
  - unfold cleanInput. rewrite map_map.
    apply map_ext. intros w. apply ToLower_ToLower.
  - eapply Forall_impl; [exact Hclean|]. intros w (? & ? & _). done.
Qed.

End cleanInput_facts.

(** * What concurrent readers can see *)

Section reader_facts.
Import cache concurrent.
Variable c0 : Cache.
Variable calls : list call.
Implicit Types (st : State) (g : goroutine) (key : string) (v : bytes).

Lemma exec_returned (c c' : Cache) (m m' : RWMutex) (now : Time) g g' :
  exec c m now g = Some (c', m', g') →
  returned g' = returned g ∨
  ∃ key, op g = DoGet key ∧ returned g' = Some (fst (Get key c)).
Proof.
  destruct g as [o p r s]. unfold exec; simpl. intros Hexec.
  destruct p, o; simpl in Hexec;
    repeat match type of Hexec with
           | context [if ?b then _ else _] => destruct b eqn:?
           | context [Get ?k ?c] => destruct (Get k c) as [? ?] eqn:?
           end;
    simplify_eq/=; try (by left).
  right. eexists. split; [done|].
  match goal with H : Get _ _ = _ |- _ => by rewrite H end.
Qed.

Lemma step_sound st a st' :
  sound c0 calls st → step st a = Some st' → sound c0 calls st'.
Proof.
  unfold sound, written. intros (Hops & Hstore & Hret) Hstep. split_and!.
  - by rewrite (step_ops _ _ _ Hstep).
  - destruct a as [j|d]; simpl in Hstep.
    2: { case_bool_decide; simplify_eq. done. }
    destruct (goroutines st !! j) as [gj|] eqn:Hj; [|done].
    destruct (exec _ _ _ gj) as [[[c m] gj']|] eqn:Hexec; [|done].
    simplify_eq. simpl. intros key e.
    apply exec_effect in Hexec
      as [_ [[-> _]|[(key' & v' & Hadd & -> & _)|(_ & -> & _)]]].
    + apply Hstore.
    + destruct (decide (key' = key)) as [->|Hne].
      * rewrite Add_lookup. intros [= <-]. right. simpl.
        rewrite <- Hadd. apply list_elem_of_fmap.
        exists gj. split; [done|]. by eapply list_elem_of_lookup_2.
      * rewrite Add_lookup_ne by done. apply Hstore.
    + rewrite sweep_lookup. intros Hin.
      destruct (entries (store st) !! key) as [e0|] eqn:Hlook; [|done].
      destruct (expired _ _ e0); simplify_eq. by apply Hstore.
  - destruct a as [j|d]; simpl in Hstep.
    2: { case_bool_decide; simplify_eq. done. }
    destruct (goroutines st !! j) as [gj|] eqn:Hj; [|done].
    destruct (exec _ _ _ gj) as [[[c m] gj']|] eqn:Hexec; [|done].
    simplify_eq. simpl. intros i g v found Hi Hreturned.
    apply list_lookup_insert_Some in Hi as [(-> & -> & Hlen)|[Hne Hi]];
      [|by eapply Hret].
    pose proof (exec_effect _ _ _ _ _ _ _ Hexec) as [Hop _].
    apply exec_returned in Hexec as [Hsame|(key & Hget & Hnew)].
    + rewrite Hsame in Hreturned. rewrite Hop. by eapply Hret.
    + rewrite Hnew in Hreturned. exists key. split; [congruence|].
      unfold Get in Hreturned.
      destruct (entries (store st) !! key) as [e|] eqn:Hlook;
        simpl in Hreturned; simplify_eq; [|done].
      by eapply Hstore.
Qed.

Lemma run_sound sch st st' :
  sound c0 calls st → run st sch = Some st' → sound c0 calls st'.
Proof.
  revert st. induction sch as [|a sch IH]; simpl; intros st Hinv Hrun.
  - by simplify_eq.
  - destruct (step st a) as [st1|] eqn:Hstep; [|done].
    eauto using step_sound.
Qed.

(** X23 (readers see written payloads only): under every interleaving,
    an entry of the store carries a payload that was under its key in the
    store the goroutines started from or that one of the [Add] calls
    wrote under that key; a [Get] that returns [true] returns such a
    payload for its key, and a [Get] that returns [false] returns the nil
    payload. *)
Theorem readers_see_written_payloads_only (now0 : Time) sch st :
  run (init c0 now0 calls) sch = Some st →
  (∀ key e, entries (store st) !! key = Some e →
     (∃ e0, entries c0 !! key = Some e0 ∧ data e0 = data e) ∨
     DoAdd key (data e) ∈ calls) ∧
  (∀ i g v (found : bool),
     goroutines st !! i = Some g → returned g = Some (v, found) →
     ∃ key, op g = DoGet key ∧
       if found
       then (∃ e0, entries c0 !! key = Some e0 ∧ data e0 = v) ∨
            DoAdd key v ∈ calls
       else v = []).
Proof.
  intros Hrun.
  assert (sound c0 calls (init c0 now0 calls)) as Hinit.
  { unfold sound, written. split_and!.
    - apply init_ops.
    - intros key e Hin. left. by exists e.
    - intros i g v found Hi Hreturned. unfold init in Hi; simpl in Hi.
      change (map spawn calls) with (spawn <$> calls) in Hi.
      apply list_lookup_fmap_Some in Hi as (o & -> & _). done. }
  destruct (run_sound _ _ _ Hinit Hrun) as (_ & Hstore & Hret). by split.
Qed.

End reader_facts.

(** * Examples for the further properties *)

Section more_examples.
Import cache reaper pokeapi main samples.

Lemma sweep_sweep_witness :
  sweep 250 (sweep 150 (Add 0 "a" [Byte.x01] (Add 100 "b" [Byte.x02] (New 100))))
    = sweep 250 (Add 0 "a" [Byte.x01] (Add 100 "b" [Byte.x02] (New 100))).
Proof. apply sweep_sweep. lia. Defined.

Lemma sweep_Add_same_instant_witness :
  sweep 7 (Add 7 "a" [Byte.x01] (New 100))
    = Add 7 "a" [Byte.x01] (sweep 7 (New 100)).
Proof. apply sweep_Add_same_instant. vm_compute. discriminate. Defined.

Lemma store_holds_only_what_was_added_witness :
  In (CallAdd "a" [Byte.x01]) [CallAdd "a" [Byte.x01]; Wait 10] ∧
  0 <= 0 <= 10.
Proof.
  apply (store_holds_only_what_was_added 0 100
           [CallAdd "a" [Byte.x01]; Wait 10]
           {| store := Add 0 "a" [Byte.x01] (New 100); clock := 10;
              next_tick := 100 |}
           "a" (mkEntry 0 [Byte.x01])); vm_compute; reflexivity.
Defined.

Lemma no_entry_older_than_twice_the_ttl_witness : 150 - 0 <= 2 * 100.
Proof.
  apply (no_entry_older_than_twice_the_ttl 0 100
           [CallAdd "a" [Byte.x01]; Wait 100; Tick; Wait 50]
           {| store := sweep 100 (Add 0 "a" [Byte.x01] (New 100));
              clock := 150; next_tick := 200 |}
           "a" (mkEntry 0 [Byte.x01])); [lia|vm_compute; reflexivity..].
Defined.

Lemma staleness_window_is_reached_witness :
  ∃ w,
    run (start 0 100)
      [Wait (100 - 0); Tick; Wait 30; CallAdd "a" [Byte.x01];
       Wait (100 - 30); Tick; Wait 100] = Some w ∧
    clock w = 100 + 2 * 100 ∧
    entries (store w) !! "a" = Some (mkEntry (100 + 30) [Byte.x01]) ∧
    clock w - (100 + 30) = 2 * 100 - 30 ∧
    fst (Get "a" (store w)) = ([Byte.x01], true).
Proof.
  apply (staleness_window_is_reached 0 100 [] (start 0 100) 30 "a" [Byte.x01]);
    [lia | lia | reflexivity].
Defined.

Lemma second_fetch_is_a_cache_hit_witness :
  ∃ c1 io1,
    fetchWithCache sample_http_Get 7
      "https://pokeapi.co/api/v2/pokemon/pikachu/" NewClient (mkIO [] [])
      = (Ok [Byte.x70], c1, io1) ∧
    fetchWithCache sample_down_http_Get 9
      "https://pokeapi.co/api/v2/pokemon/pikachu/" c1 io1
      = (Ok [Byte.x70], c1, Println "(using cached data)" io1).
Proof.
  eexists _, _. split; [vm_compute; reflexivity|].
  eapply proj1.
  apply (second_fetch_is_a_cache_hit sample_http_Get sample_down_http_Get
           7 9 "https://pokeapi.co/api/v2/pokemon/pikachu/" NewClient
           (mkIO [] [])).
  vm_compute. reflexivity.
Defined.


(** The garbled body is cached by the first call; after a fetch of
    another Pokemon it is still served, and the call fails as before. *)
Lemma unparseable_body_is_cached_witness :
  ∃ c1,
    GetPokemon sample_garbled_http_Get sample_json_Unmarshal 7 "pikachu"
      NewClient (mkIO [] [])
    = (Err (FailedToParse "unexpected end of JSON input"), c1,
       request (pokemon_url NewClient "pikachu") (mkIO [] [])) ∧
    let c2 :=
      snd (fst (fetchWithCache sample_http_Get 8
                  (pokemon_url NewClient "blissey") c1 (mkIO [] []))) in
    GetPokemon sample_http_Get sample_json_Unmarshal 9 "pikachu" c2 (mkIO [] [])
    = (Err (FailedToParse "unexpected end of JSON input"), c2,
       Println "(using cached data)" (mkIO [] [])).
Proof.
  destruct (unparseable_body_is_cached sample_garbled_http_Get
              sample_json_Unmarshal 7 "pikachu" NewClient (mkIO [] [])
              (mkResponse 200 (inl [Byte.x3f])) [Byte.x3f]
              "unexpected end of JSON input")
    as (c1 & Hfirst & Hbase & Hin & Hlater); [vm_compute; reflexivity..|].
  exists c1. split; [exact Hfirst|]. cbv zeta.
  destruct (fetchWithCache sample_http_Get 8 (pokemon_url NewClient "blissey")
              c1 (mkIO [] [])) as [[r c2] io2] eqn:Hfetch.
  eapply proj1. eapply (Hlater c2 (mkEntry 7 [Byte.x3f])).
  - rewrite <- Hbase. by eapply fetch_baseURL.
  - by eapply fetch_keeps_entries.
  - reflexivity.
Defined.

Lemma endpoint_urls_do_not_collide_witness :
  "pikachu"%string = "pikachu"%string ∧
  pokemon_url NewClient "pikachu" ≠ location_area_url NewClient "pikachu".
Proof.
  destruct (endpoint_urls_do_not_collide NewClient "pikachu" "pikachu")
    as (Hinj & _ & Hdiff & _).
  split; [apply Hinj; reflexivity|exact Hdiff].
Defined.

Lemma fetchWithCache_keeps_cached_entries_witness :
  entries
    (cache
       (snd (fst (fetchWithCache sample_http_Get 9
                    "https://pokeapi.co/api/v2/pokemon/blissey/"
                    (set_cache NewClient
                       (Add 7 "https://pokeapi.co/api/v2/pokemon/pikachu/"
                          [Byte.x70] (cache NewClient)))
                    (mkIO [] [])))))
    !! "https://pokeapi.co/api/v2/pokemon/pikachu/"
  = Some (mkEntry 7 [Byte.x70]).
Proof.
  apply fetchWithCache_keeps_cached_entries. vm_compute. reflexivity.
Defined.

Lemma failed_page_leaves_position_witness :
  ∃ cfg' io',
    commandMap sample_down_http_Get sample_json_Unmarshal_areas 7
      sample_config [] (mkIO [] [])
    = (Some (Fetch (FailedToFetch "down")), cfg', io') ∧
    nextURL cfg' = nextURL sample_config ∧ cfg' = sample_config.
Proof.
  eexists _, _. split; [vm_compute; reflexivity|].
  edestruct (failed_page_leaves_position sample_json_Unmarshal_areas
               sample_down_http_Get 7 sample_config [] (mkIO [] []))
    as (Hnext & _ & _ & Hsame).
  - left. vm_compute. reflexivity.
  - split; [exact Hnext|]. by eapply Hsame.
Defined.

Lemma map_map_mapb_returns_to_first_page_witness :
  ∃ cfg3 io3,
    commandMapb sample_down_http_Get sample_json_Unmarshal_areas 3
      (snd (fst sample_after_map2)) [] (snd sample_after_map2)
      = (None, cfg3, io3) ∧
    nextURL cfg3 = nextURL (snd (fst sample_after_map1)) ∧
    prevURL cfg3 = prevURL (snd (fst sample_after_map1)) ∧
    requests io3 = requests (snd sample_after_map2).
Proof.
  destruct (map_map_mapb_returns_to_first_page sample_json_Unmarshal_areas
              sample_pages_http_Get sample_pages_http_Get
              sample_down_http_Get 1 2 3 sample_config [] [] [] (mkIO [] [])
              (snd (fst sample_after_map1)) (snd sample_after_map1)
              (snd (fst sample_after_map2)) (snd sample_after_map2)
              sample_page1 sample_page2)
    as (cfg3 & io3 & Hmapb & Hnext & Hprev & _ & _ & Hreq);
    [vm_compute; reflexivity..|].
  exists cfg3, io3. split_and!; assumption.
Defined.

Lemma pokedex_holds_only_catchable_witness : BaseExperience pikachu < 400.
Proof.
  apply (pokedex_holds_only_catchable sample_json_Unmarshal sample_http_Get
           0 150 sample_config ["pikachu"] (mkIO [] [])
           ltac:(unfold Intn_returns, maxBaseExp; lia)
           ltac:(intros k q Hin; vm_compute in Hin; discriminate)
           "pikachu" pikachu).
  vm_compute. reflexivity.
Defined.

Lemma catching_rolls_count_witness :
  length
    (filter
       (λ roll,
          is_Some
            (pokedex
               (snd (fst (commandCatch sample_http_Get sample_json_Unmarshal
                            0 roll sample_config ["pikachu"] (mkIO [] []))))
             !! "pikachu"))
       (seqZ 0 400))
  = 288%nat.
Proof.
  erewrite (catching_rolls_count sample_json_Unmarshal sample_http_Get 0
              sample_config "pikachu" [] (mkIO [] []) pikachu);
    [reflexivity | vm_compute; reflexivity | reflexivity].
Defined.

Lemma commandPokedex_lists_the_caught_witness :
  ∃ lines,
    stdout (snd (commandPokedex ["pikachu"] sample_caught_config []
                   (mkIO [] [])))
      = stdout (mkIO [] []) ++ "Your Pokedex:" :: lines ∧
    length lines = size (pokedex sample_caught_config).
Proof.
  destruct (commandPokedex_lists_the_caught ["pikachu"] sample_caught_config
              [] (mkIO [] [])) as [_ Hlisted].
  - change (pokedex sample_caught_config)
      with ({[ "pikachu"%string := pikachu ]} : gmap string Pokemon).
    rewrite map_to_list_singleton. reflexivity.
  - destruct Hlisted as (lines & Hout & Hlen & _).
    + intros Hempty. apply (f_equal (λ m, m !! "pikachu")) in Hempty.
      vm_compute in Hempty. discriminate.
    + exists lines. split; assumption.
Defined.

(** The cases of the test of [cleanInput] in the repository. *)
Lemma cleanInput_tests :
  cleanInput "  hello  world  " = ["hello"; "world"]%string ∧
  cleanInput "damn    that's crazzyy" = ["damn"; "that's"; "crazzyy"]%string ∧
  cleanInput "HELLO World" = ["hello"; "world"]%string ∧
  cleanInput "" = [] ∧
  cleanInput "   " = [].
Proof. repeat split; reflexivity. Qed.

Lemma cleanInput_words_are_clean_witness :
  Forall clean_word (cleanInput "  HELLO  World  ").
Proof. apply cleanInput_words_are_clean. reflexivity. Defined.

Lemma cleanInput_empty_iff_witness : cleanInput "   " = [].
Proof. apply cleanInput_empty_iff; reflexivity. Defined.

Lemma cleanInput_split_witness :
  cleanInput "catch PIKACHU" = cleanInput "catch" ++ cleanInput "PIKACHU".
Proof.
  apply (cleanInput_split "catch" "PIKACHU" (Ascii.ascii_of_nat 32));
    reflexivity.
Defined.

Lemma cleanInput_ignores_case_witness :
  cleanInput "HELLO World" = cleanInput "hello WORLD".
Proof.
  eapply proj1. apply cleanInput_ignores_case; reflexivity.
Defined.

Lemma cleanInput_Join_witness :
  cleanInput (Join_space (cleanInput "  hello  world  "))
    = cleanInput "  hello  world  ".
Proof. apply cleanInput_Join. reflexivity. Defined.

Lemma readers_see_written_payloads_only_witness :
  (∃ e0, entries (New 100) !! "a" = Some e0 ∧ data e0 = [Byte.x01]) ∨
  concurrent.DoAdd "a" [Byte.x01] ∈ sample_calls.
Proof.
  edestruct (readers_see_written_payloads_only (New 100) sample_calls 0
               sample_schedule) as [_ Hret]; [vm_compute; reflexivity|].
  edestruct (Hret 2%nat) as (key & Hop & Hwritten);
    [vm_compute; reflexivity | vm_compute; reflexivity |].
  vm_compute in Hop. injection Hop as <-. exact Hwritten.
Defined.

End more_examples.

(** * Safety of concurrent calls *)

Section concurrent_safety.
Import cache concurrent samples.
Implicit Types (st : State) (g : goroutine) (key : string) (v : bytes).

(** A statement that changes the store is the statement on the map of
    [Add] or of the sweep, run inside the critical section. *)
Lemma exec_writes (c c' : Cache) (m m' : RWMutex) (now : Time) g g' :
  exec c m now g = Some (c', m', g') → c' ≠ c →
  inside g = true ∧ writes (op g) = true.
Proof.
  destruct g as [o p r s]. unfold exec; simpl. intros Hexec Hchanged.
  destruct p, o; simpl in Hexec;
    repeat match type of Hexec with
           | context [if ?b then _ else _] => destruct b eqn:?
           | context [Get ?k ?c] =>
               pose proof (snd_Get k c); destruct (Get k c) as [? ?]
           end;
    simplify_eq/=; done.
Qed.

(** A statement that changes what the goroutine returns is the statement
    on the map of [Get], run inside the critical section. *)
Lemma exec_reads (c c' : Cache) (m m' : RWMutex) (now : Time) g g' :
  exec c m now g = Some (c', m', g') → returned g' ≠ returned g →
  inside g = true ∧
  ∃ key, op g = DoGet key ∧ returned g' = Some (fst (Get key c)).
Proof.
  intros Hexec Hchanged.
  destruct (exec_returned _ _ _ _ _ _ _ Hexec) as [?|(key & Hop & Hret)];
    [done|].
  split; [|by exists key].
  destruct g as [o p r s]. unfold exec in Hexec; simpl in *. subst o.
  destruct p; simpl in Hexec;
    repeat match type of Hexec with
           | context [if ?b then _ else _] => destruct b eqn:?
           | context [Get ?k ?c] => destruct (Get k c) as [? ?]
           end;
    simplify_eq/=; done.
Qed.

Lemma step_answered_inv st a st' :
  answered_inv st → step st a = Some st' → answered_inv st'.
Proof.
  intros Hst Hstep i g key Hi Hop Hpos.
  destruct a as [j|d]; simpl in Hstep.
  2: { case_bool_decide; simplify_eq. by apply (Hst i g key). }
  destruct (goroutines st !! j) as [gj|] eqn:Hj; [|done].
  destruct (exec _ _ _ gj) as [[[c m] gj']|] eqn:Hexec; [|done].
  simplify_eq. simpl in *.
  apply list_lookup_insert_Some in Hi as [(-> & -> & Hlen)|[Hne Hi]];
    [|by apply (Hst i g key)].
  specialize (Hst i gj key Hj).
  destruct gj as [o p r s]. unfold exec in Hexec; simpl in *.
  destruct p, o; simpl in Hexec;
    repeat match type of Hexec with
           | context [if ?b then _ else _] => destruct b eqn:?
           | context [Get ?k ?c] => destruct (Get k c) as [? ?]
           end;
    simplify_eq/=; try done; try (by destruct Hpos); eauto.
Qed.

Lemma run_answered_inv sch st st' :
  answered_inv st → run st sch = Some st' → answered_inv st'.
Proof.
  revert st. induction sch as [|a sch IH]; simpl; intros st Hinv Hrun.
  - by simplify_eq.
  - destruct (step st a) as [st1|] eqn:Hstep; [|done].
    eauto using step_answered_inv.
Qed.

Lemma init_answered_inv (c : Cache) (now : Time) (calls : list call) :
  answered_inv (init c now calls).
Proof.
  intros i g key Hi _ Hpos. unfold init in Hi; simpl in Hi.
  change (map spawn calls) with (spawn <$> calls) in Hi.
  apply list_lookup_fmap_Some in Hi as (o & -> & _). by destruct Hpos.
Qed.

Lemma init_sound (c0 : Cache) (now0 : Time) (calls : list call) :
  sound c0 calls (init c0 now0 calls).
Proof.
  unfold sound, written. split_and!.
  - apply init_ops.
  - intros key e Hin. left. by exists e.
  - intros i g v found Hi Hreturned. unfold init in Hi; simpl in Hi.
    change (map spawn calls) with (spawn <$> calls) in Hi.
    apply list_lookup_fmap_Some in Hi as (o & -> & _). done.
Qed.

(** C8 (concurrent safety): goroutines calling [Add] and [Get] and running
    sweeps are interleaved in any way from a store with a free mutex.  In
    every state they reach,
    - no two goroutines are inside their critical sections at once when
      one of them writes the map, and a goroutine inside holds the mutex
      in its mode: a writer alone, a reader with readers only;
    - every statement that changes the store is run by a goroutine that
      holds the write lock, no other goroutine being inside its critical
      section: the writes are serialized under the lock; every statement
      that sets what a [Get] returns is run under the read lock, no
      writer being inside, and sets it to what the store holds for the
      key at that moment;
    - some schedule lets every goroutine return: nothing is deadlocked;
    - an [Add key v] whose key no other goroutine adds, once returned,
      has its entry in the store as long as the entry has not expired:
      [Get key] returns [(v, true)];
    - a [Get key] that has returned has a result: [true] with a payload
      that was in the initial store under [key] or that an [Add] call
      wrote under [key], or [false] with the nil payload. *)
Theorem concurrent_calls_are_safe
    (c0 : Cache) (now0 : Time) (calls : list call) sch st :
  run (init c0 now0 calls) sch = Some st →
  ¬ conflict st ∧
  (∀ i g, goroutines st !! i = Some g → inside g = true →
     if writes (op g)
     then writer (mu st) = true ∧ readers (mu st) = 0%nat
     else writer (mu st) = false ∧ (0 < readers (mu st))%nat) ∧
  (∀ i st', step st (Run i) = Some st' →
     ∃ g g',
       goroutines st !! i = Some g ∧ goroutines st' !! i = Some g' ∧
       (store st' ≠ store st →
          inside g = true ∧ writes (op g) = true ∧
          writer (mu st) = true ∧ readers (mu st) = 0%nat ∧
          ∀ j gj, j ≠ i → goroutines st !! j = Some gj → inside gj = false) ∧
       (returned g' ≠ returned g →
          inside g = true ∧
          writer (mu st) = false ∧ (0 < readers (mu st))%nat ∧
          (∃ key, op g = DoGet key ∧
                  returned g' = Some (fst (Get key (store st)))) ∧
          ∀ j gj, j ≠ i → goroutines st !! j = Some gj →
                  inside gj = true → writes (op gj) = false)) ∧
  (∃ sch' st', run st sch' = Some st' ∧ all_done st' = true) ∧
  (∀ i key v g,
     calls !! i = Some (DoAdd key v) →
     (∀ j v', calls !! j = Some (DoAdd key v') → j = i) →
     goroutines st !! i = Some g → finished g = true →
     ∃ t0, stamp g = Some t0 ∧ t0 <= clock st ∧
           (clock st - t0 <= ttl (store st) →
            fst (Get key (store st)) = (v, true))) ∧
  (∀ i key g,
     calls !! i = Some (DoGet key) →
     goroutines st !! i = Some g → finished g = true →
     ∃ v (found : bool),
       returned g = Some (v, found) ∧
       if found
       then (∃ e0, entries c0 !! key = Some e0 ∧ data e0 = v) ∨
            DoAdd key v ∈ calls
       else v = []).
Proof.
  intros Hrun.
  pose proof (run_lock_inv _ _ _ (init_lock_inv c0 now0 calls) Hrun) as Hlock.
  pose proof (run_kept_inv _ _ _ (init_kept_inv c0 now0 calls) Hrun) as Hkept.
  pose proof (run_stamped_inv _ _ _ (init_stamped_inv c0 now0 calls) Hrun)
    as Hstamped.
  pose proof (run_answered_inv _ _ _ (init_answered_inv c0 now0 calls) Hrun)
    as Hanswered.
  pose proof (run_sound _ _ _ _ _ (init_sound c0 now0 calls) Hrun)
    as (_ & _ & Hsound).
  pose proof (run_ops _ _ _ Hrun) as Hops. rewrite init_ops in Hops.
  split_and!.
  - by apply lock_inv_no_conflict.
  - intros i g. by apply lock_inv_held.
  - intros i st' Hstep. simpl in Hstep.
    destruct (goroutines st !! i) as [g|] eqn:Hi; [|done].
    destruct (exec _ _ _ g) as [[[c m] g']|] eqn:Hexec; [|done].
    simplify_eq. exists g, g'. simpl.
    split; [done|]. split.
    { apply list_lookup_insert_eq. by eapply lookup_lt_Some. }
    split.
    + intros Hchanged.
      destruct (exec_writes _ _ _ _ _ _ _ Hexec Hchanged) as [Hin Hwr].
      pose proof (lock_inv_held st i g Hlock Hi Hin) as Hheld.
      rewrite Hwr in Hheld. destruct Hheld as [Hwriter Hreaders].
      split_and!; [done..|].
      intros j gj Hne Hj. destruct (inside gj) eqn:Hinj; [|done].
      exfalso. apply (lock_inv_no_conflict st Hlock).
      exists i, j, g, gj. split_and!; [done..|]. by left.
    + intros Hchanged.
      destruct (exec_reads _ _ _ _ _ _ _ Hexec Hchanged)
        as (Hin & key & Hop & Hret).
      pose proof (lock_inv_held st i g Hlock Hi Hin) as Hheld.
      rewrite Hop in Hheld. simpl in Hheld. destruct Hheld as [Hwriter Hreaders].
      split_and!; [done..|by exists key|].
      intros j gj Hne Hj Hinj. destruct (writes (op gj)) eqn:Hwr; [|done].
      exfalso. apply (lock_inv_no_conflict st Hlock).
      exists i, j, g, gj. split_and!; [done..|]. by right.
  - by apply (completes (tally fuel (goroutines st))).
  - intros i key v g Hcall Hsole Hi Hfin.
    assert (op g = DoAdd key v) as Hop.
    { rewrite <- Hops, list_lookup_fmap, Hi in Hcall. by simplify_eq/=. }
    destruct (Hstamped i g key v Hi Hop) as [t0 Ht0].
    { right. unfold finished in Hfin. by destruct (pos g). }
    exists t0. split; [done|].
    destruct (Hkept i g key v t0 Hi Hop Ht0) as [Hle Hcase].
    { intros j gj Hj Hadds. unfold adds in Hadds.
      destruct (op gj) as [key' v'| |] eqn:Hopj; try done.
      apply bool_decide_eq_true in Hadds as ->.
      apply (Hsole j v'). by rewrite <- Hops, list_lookup_fmap, Hj, <- Hopj. }
    split; [done|]. intros Hfresh.
    destruct Hcase as [Hin|[_ Hlate]]; [|lia].
    by rewrite (Get_hit _ _ _ Hin).
  - intros i key g Hcall Hi Hfin.
    assert (op g = DoGet key) as Hop.
    { rewrite <- Hops, list_lookup_fmap, Hi in Hcall. by simplify_eq/=. }
    destruct (Hanswered i g key Hi Hop) as [[v found] Hret].
    { right. unfold finished in Hfin. by destruct (pos g). }
    exists v, found. split; [done|].
    destruct (Hsound i g v found Hi Hret) as (key' & Hop' & Hwritten).
    rewrite Hop in Hop'. by simplify_eq.
Qed.

Lemma concurrent_calls_are_safe_witness :
  ∃ st, run (init (New 100) 0 sample_calls) sample_schedule = Some st ∧
        all_done st = true ∧
        fst (Get "a" (store st)) = ([Byte.x01], true) ∧
        fst (Get "b" (store st)) = ([Byte.x02], true) ∧
        ∃ g, goroutines st !! 2%nat = Some g ∧
             returned g = Some ([Byte.x01], true).
Proof.
  assert (from_option all_done false
            (run (init (New 100) 0 sample_calls) sample_schedule) = true)
    as Hdone by (vm_compute; reflexivity).
  assert (from_option (λ st, clock st - 0 <=? ttl (store st)) false
            (run (init (New 100) 0 sample_calls) sample_schedule) = true)
    as Hfresh by (vm_compute; reflexivity).
  assert (from_option (λ st, goroutines st !! 0%nat) None
            (run (init (New 100) 0 sample_calls) sample_schedule)
          = Some (mkGoroutine (DoAdd "a" [Byte.x01]) Done None (Some 0)))
    as Hg0 by (vm_compute; reflexivity).
  assert (from_option (λ st, goroutines st !! 1%nat) None
            (run (init (New 100) 0 sample_calls) sample_schedule)
          = Some (mkGoroutine (DoAdd "b" [Byte.x02]) Done None (Some 0)))
    as Hg1 by (vm_compute; reflexivity).
  assert (from_option (λ st, returned <$> goroutines st !! 2%nat) None
            (run (init (New 100) 0 sample_calls) sample_schedule)
          = Some (Some ([Byte.x01], true)))
    as Hg2 by (vm_compute; reflexivity).
  destruct (run (init (New 100) 0 sample_calls) sample_schedule)
    as [st|] eqn:Hrun; [|discriminate].
  cbn [from_option] in *. apply Z.leb_le in Hfresh.
  destruct (concurrent_calls_are_safe (New 100) 0 sample_calls
              sample_schedule st Hrun) as (_ & _ & _ & _ & Hkept & _).
  exists st. split_and!; [reflexivity|exact Hdone| | |].
  - edestruct (Hkept 0%nat "a" [Byte.x01]) as (t0 & Hstamp & _ & Hhit);
      [reflexivity | | exact Hg0 | reflexivity |].
    + intros [|[|[|[|j]]]] v' Hj; vm_compute in Hj; congruence.
    + cbn in Hstamp. injection Hstamp as <-. by apply Hhit.
  - edestruct (Hkept 1%nat "b" [Byte.x02]) as (t0 & Hstamp & _ & Hhit);
      [reflexivity | | exact Hg1 | reflexivity |].
    + intros [|[|[|[|j]]]] v' Hj; vm_compute in Hj; congruence.
    + cbn in Hstamp. injection Hstamp as <-. by apply Hhit.
  - destruct (goroutines st !! 2%nat) as [g|]; [|discriminate].
    exists g. split; [reflexivity|]. cbn in Hg2. by injection Hg2.
Defined.

End concurrent_safety.
